(** * The notification reconciler of [notification-bell.tsx]

    A shallow embedding of the client-side notification logic of the
    [NotificationBell] component: the candidate producers run on every
    snapshot of the user document and of the request collections, the merge
    of a batch of candidates into the reconciled list
    ([mergeNotifications]), the side-channel mail request
    ([sendEmailNotification]), the unread counter and the read-state write
    ([handleMarkAsRead]).

    Conventions of the embedding.
    - A JS [Map] iterates in insertion order and [set] on a present key
      keeps the key's position: it is an association list with unique keys.
    - A JS [Set<string>] is a [gset string].
    - An optional field ([recipientEmail?], a counter that may be missing
      from a document) is an [option]; the truthiness tests of the source are
      written out.
    - [Timestamp] is the type of the Firestore SDK; the component only calls
      [toMillis] on it and reads the clock with [Timestamp.now()].  Both are
      taken as parameters.  [toMillis] returns a finite JS number, which is a
      rational.
    - A string is the list of its characters, standing for the code units of
      the source string.
    - The hooks' results ([firestore], [user]) and the component state read
      by a callback are explicit arguments; the state written by a callback
      is returned. *)

From Stdlib Require Import ZArith QArith String Ascii.
From stdpp Require Import base strings gmap sets list sorting pretty.

#[local] Set Warnings "-clear-no-such-hyp".

(** ** Strings and JS truthiness *)

(** The double quote character, and a line feed. *)
Definition dquote : string := String (ascii_of_nat 34) EmptyString.
Definition LF : string := String (ascii_of_nat 10) EmptyString.

(** [!!s] for an optional string: [undefined] and the empty string are falsy. *)
Definition truthy (s : option string) : bool :=
  match s with
  | Some s => negb (String.eqb s "")
  | None => false
  end.

(** [s || d] for an optional string. *)
Definition or_else (s : option string) (d : string) : string :=
  match s with
  | Some s => if String.eqb s "" then d else s
  | None => d
  end.

(** [`${s}`] for an optional string. *)
Definition template (s : option string) : string :=
  from_option (λ s, s) "undefined" s.

(** [n && n > 0] for an optional counter. *)
Definition positive_count (n : option Z) : bool :=
  match n with
  | Some n => (0 <? n)%Z
  | None => false
  end.

(** ** Data model *)

Inductive NotificationType :=
  | new_bid
  | gig_hired
  | project_chat
  | direct_message
  | delivery_approved
  | project_disputed
  | new_report
  | new_contact_submission
  | review_request
  | new_delivery
  | project_completed
  | direct_booking_request
  | direct_booking_approved
  | direct_booking_declined
  | dispute_resolved.

#[global] Instance NotificationType_eq_dec : EqDecision NotificationType.
Proof. solve_decision. Defined.

(** [Omit<Notification, 'isRead'>]: what a producer emits and what the
    merge keeps in its map. *)
Record Candidate (Timestamp : Type) := {
  id : string;
  type : NotificationType;
  message : string;
  link : string;
  timestamp : Timestamp;
  recipientEmail : option string;
  recipientName : option string;
}.
Arguments id {_} _.
Arguments type {_} _.
Arguments message {_} _.
Arguments link {_} _.
Arguments timestamp {_} _.
Arguments recipientEmail {_} _.
Arguments recipientName {_} _.

(** [Notification]: a candidate with its [isRead] flag. *)
Record Notification (Timestamp : Type) := {
  core : Candidate Timestamp;
  isRead : bool;
}.
Arguments core {_} _.
Arguments isRead {_} _.

(** The document added to the [mail] collection. *)
Record MailMessage := { subject : string; html : string }.
Record MailData := { to : list (option string); mail_message : MailMessage }.

(** The fields of a user document that the component reads. *)
Module User.
Record t := {
  role : string;
  name : option string;
  email : option string;
  readNotificationIds : option (list string);
  openReportsCount : option Z;
  unreadContactSubmissionsCount : option Z;
  disputedProjectsCount : option Z;
  unreadGigsCount : option Z;
  pendingReviewCount : option Z;
}.
End User.

(** The fields of a request document that the component reads. *)
Module ProjectRequest.
Record t (Timestamp : Type) := {
  id : option string;
  userId : string;
  title : string;
  status : string;
  hiredPhotographerId : option string;
  unreadBidsCount : option Z;
  clientHasReviewed : bool;
  photographerHasReviewed : bool;
  photographerRespondedAt : option Timestamp;
  createdAt : Timestamp;
  disputeResolvedAt : option Timestamp;
  disputeResolution : option string;
}.
Arguments id {_} _.
Arguments userId {_} _.
Arguments title {_} _.
Arguments status {_} _.
Arguments hiredPhotographerId {_} _.
Arguments unreadBidsCount {_} _.
Arguments clientHasReviewed {_} _.
Arguments photographerHasReviewed {_} _.
Arguments photographerRespondedAt {_} _.
Arguments createdAt {_} _.
Arguments disputeResolvedAt {_} _.
Arguments disputeResolution {_} _.
End ProjectRequest.

(** A document of a query snapshot: [doc.id] and [doc.data()]. *)
Record QueryDocumentSnapshot (Timestamp : Type) := {
  doc_id : string;
  doc_data : ProjectRequest.t Timestamp;
}.
Arguments doc_id {_} _.
Arguments doc_data {_} _.

(** The outcome of [await getDocs(query)]: the documents, or a rejection. *)
Inductive QueryResult (Timestamp : Type) :=
  | Resolved (docs : list (ProjectRequest.t Timestamp))
  | Rejected.
Arguments Resolved {_} _.
Arguments Rejected {_}.

(** The last message of a chat room and the fields of a chat-room document
    that the component reads.  [hasUnreadMessages] maps a user id to a
    flag. *)
Record LastMessage (Timestamp : Type) := {
  senderId : string;
  sentAt : Timestamp;
}.
Arguments senderId {_} _.
Arguments sentAt {_} _.

Module ChatRoom.
Record t (Timestamp : Type) := {
  id : string;
  lastMessage : option (LastMessage Timestamp);
  hasUnreadMessages : option (gmap string bool);
  isProjectChat : bool;
  requestId : option string;
}.
Arguments id {_} _.
Arguments lastMessage {_} _.
Arguments hasUnreadMessages {_} _.
Arguments isProjectChat {_} _.
Arguments requestId {_} _.
End ChatRoom.

(** The outcome of [await getDoc(ref)]: the document's data, [undefined]
    when there is no such document, or a rejection. *)
Inductive DocResult :=
  | DocResolved (data : option User.t)
  | DocRejected.

(** ** Sample data

    Timestamps as integer milliseconds, a clock that ticks at every reading,
    a store whose writes resolve; a client, two of her requests and a
    request she was hired for. *)

Definition millis (t : Z) : Q := inject_Z t.

Definition clock (k : nat) : Z := 1700000000000 + Z.of_nat k.

(** The clock ten readings later. *)
Definition laterClock (k : nat) : Z := clock (10 + k).

Definition resolves (d : MailData) : bool := true.

Definition ana : User.t :=
  {| User.role := "client";
     User.name := Some "Ana";
     User.email := Some "ana@example.com";
     User.readNotificationIds := Some ["msg-c9"];
     User.openReportsCount := None;
     User.unreadContactSubmissionsCount := None;
     User.disputedProjectsCount := None;
     User.unreadGigsCount := Some 1%Z;
     User.pendingReviewCount := Some 2%Z |}.

Definition sunsetShoot : ProjectRequest.t Z :=
  {| ProjectRequest.id := Some "p1";
     ProjectRequest.userId := "u7";
     ProjectRequest.title := "Sunset Shoot";
     ProjectRequest.status := "In Progress";
     ProjectRequest.hiredPhotographerId := Some "u1";
     ProjectRequest.unreadBidsCount := None;
     ProjectRequest.clientHasReviewed := false;
     ProjectRequest.photographerHasReviewed := false;
     ProjectRequest.photographerRespondedAt := None;
     ProjectRequest.createdAt := 1699999000000%Z;
     ProjectRequest.disputeResolvedAt := None;
     ProjectRequest.disputeResolution := None |}.

Definition requestR1 : QueryDocumentSnapshot Z :=
  {| doc_id := "r1";
     doc_data :=
       {| ProjectRequest.id := None;
          ProjectRequest.userId := "u1";
          ProjectRequest.title := "Wedding";
          ProjectRequest.status := "Delivered";
          ProjectRequest.hiredPhotographerId := Some "u3";
          ProjectRequest.unreadBidsCount := Some 2%Z;
          ProjectRequest.clientHasReviewed := false;
          ProjectRequest.photographerHasReviewed := false;
          ProjectRequest.photographerRespondedAt := None;
          ProjectRequest.createdAt := 1699990000000%Z;
          ProjectRequest.disputeResolvedAt := Some 1699995000000%Z;
          ProjectRequest.disputeResolution := Some "paid" |} |}.

Definition requestR2 : QueryDocumentSnapshot Z :=
  {| doc_id := "r2";
     doc_data :=
       {| ProjectRequest.id := Some "r2";
          ProjectRequest.userId := "u1";
          ProjectRequest.title := "Portraits";
          ProjectRequest.status := "Pending";
          ProjectRequest.hiredPhotographerId := Some "u1";
          ProjectRequest.unreadBidsCount := Some 1%Z;
          ProjectRequest.clientHasReviewed := false;
          ProjectRequest.photographerHasReviewed := false;
          ProjectRequest.photographerRespondedAt := None;
          ProjectRequest.createdAt := 1699980000000%Z;
          ProjectRequest.disputeResolvedAt := None;
          ProjectRequest.disputeResolution := None |} |}.

(** A bid candidate for a request, as [processProjectSnapshot] pushes it;
    [recipient] is missing while the user document is not loaded. *)
Definition bidOn (r : string) (t : Z) (recipient : option string) : Candidate Z :=
  {| id := "bid-" +:+ r; type := new_bid;
     message := "2 new bid(s) on " +:+ dquote +:+ "Wedding" +:+ dquote;
     link := "/requests/" +:+ r; timestamp := t;
     recipientEmail := recipient; recipientName := Some "Ana" |}.

Definition chatMessage (t : Z) : Candidate Z :=
  {| id := "msg-c9"; type := direct_message;
     message := "New message from Someone.";
     link := "/messages/c9"; timestamp := t;
     recipientEmail := Some "ana@example.com"; recipientName := Some "Ana" |}.

(** An admin, a photographer, three chat rooms of the client, the users
    the component has fetched, and a store that has no document for the
    users it is asked for. *)

Definition root : User.t :=
  {| User.role := "admin";
     User.name := Some "Root";
     User.email := Some "root@example.com";
     User.readNotificationIds := None;
     User.openReportsCount := Some 3%Z;
     User.unreadContactSubmissionsCount := None;
     User.disputedProjectsCount := Some 1%Z;
     User.unreadGigsCount := Some 4%Z;
     User.pendingReviewCount := Some 2%Z |}.

Definition bea : User.t :=
  {| User.role := "photographer";
     User.name := Some "Bea";
     User.email := Some "bea@example.com";
     User.readNotificationIds := None;
     User.openReportsCount := None;
     User.unreadContactSubmissionsCount := None;
     User.disputedProjectsCount := None;
     User.unreadGigsCount := None;
     User.pendingReviewCount := None |}.

Definition roomC9 : ChatRoom.t Z :=
  {| ChatRoom.id := "c9";
     ChatRoom.lastMessage := Some {| senderId := "u3"; sentAt := 5%Z |};
     ChatRoom.hasUnreadMessages := Some {[ "u1" := true ]};
     ChatRoom.isProjectChat := false;
     ChatRoom.requestId := None |}.

Definition roomP4 : ChatRoom.t Z :=
  {| ChatRoom.id := "p4";
     ChatRoom.lastMessage := Some {| senderId := "u4"; sentAt := 8%Z |};
     ChatRoom.hasUnreadMessages := Some {[ "u1" := true ]};
     ChatRoom.isProjectChat := true;
     ChatRoom.requestId := Some "r1" |}.

Definition roomOwn : ChatRoom.t Z :=
  {| ChatRoom.id := "c2";
     ChatRoom.lastMessage := Some {| senderId := "u1"; sentAt := 9%Z |};
     ChatRoom.hasUnreadMessages := Some {[ "u1" := true ]};
     ChatRoom.isProjectChat := false;
     ChatRoom.requestId := None |}.

Definition knownUsers : gmap string User.t := {[ "u3" := bea ]}.

Definition noSuchUser (k : nat) (i : string) : DocResult := DocResolved None.

(** A request of two other users, completed and not yet reviewed. *)
Definition requestR5 : QueryDocumentSnapshot Z :=
  {| doc_id := "r5";
     doc_data :=
       {| ProjectRequest.id := None;
          ProjectRequest.userId := "u8";
          ProjectRequest.title := "Harbour";
          ProjectRequest.status := "Completed";
          ProjectRequest.hiredPhotographerId := Some "u9";
          ProjectRequest.unreadBidsCount := Some 3%Z;
          ProjectRequest.clientHasReviewed := true;
          ProjectRequest.photographerHasReviewed := false;
          ProjectRequest.photographerRespondedAt := Some 1699970000000%Z;
          ProjectRequest.createdAt := 1699960000000%Z;
          ProjectRequest.disputeResolvedAt := None;
          ProjectRequest.disputeResolution := None |} |}.

(** A photographer with four new gigs. *)
Definition cy : User.t :=
  {| User.role := "photographer";
     User.name := Some "Cy";
     User.email := Some "cy@example.com";
     User.readNotificationIds := None;
     User.openReportsCount := Some 5%Z;
     User.unreadContactSubmissionsCount := None;
     User.disputedProjectsCount := None;
     User.unreadGigsCount := Some 4%Z;
     User.pendingReviewCount := None |}.

(** Two requests whose ids differ by the prefix [approved-]: a booking the
    user has to answer, and a booking of the user's that was approved. *)
Definition requestApproved : QueryDocumentSnapshot Z :=
  {| doc_id := "approved-r6";
     doc_data :=
       {| ProjectRequest.id := None;
          ProjectRequest.userId := "u8";
          ProjectRequest.title := "Atelier";
          ProjectRequest.status := "Pending";
          ProjectRequest.hiredPhotographerId := Some "u1";
          ProjectRequest.unreadBidsCount := None;
          ProjectRequest.clientHasReviewed := false;
          ProjectRequest.photographerHasReviewed := false;
          ProjectRequest.photographerRespondedAt := None;
          ProjectRequest.createdAt := 1699950000000%Z;
          ProjectRequest.disputeResolvedAt := None;
          ProjectRequest.disputeResolution := None |} |}.

Definition requestR6 : QueryDocumentSnapshot Z :=
  {| doc_id := "r6";
     doc_data :=
       {| ProjectRequest.id := None;
          ProjectRequest.userId := "u1";
          ProjectRequest.title := "Garden";
          ProjectRequest.status := "Pending";
          ProjectRequest.hiredPhotographerId := Some "u9";
          ProjectRequest.unreadBidsCount := None;
          ProjectRequest.clientHasReviewed := false;
          ProjectRequest.photographerHasReviewed := false;
          ProjectRequest.photographerRespondedAt := Some 1699955000000%Z;
          ProjectRequest.createdAt := 1699940000000%Z;
          ProjectRequest.disputeResolvedAt := None;
          ProjectRequest.disputeResolution := None |} |}.

(** ** A JS [Map] with string keys *)

Module JsMap.
Definition t (V : Type) := list (string * V).

Definition empty {V} : t V := [].

Definition has {V} (k : string) (m : t V) : bool := bool_decide (k ∈ m.*1).

Fixpoint set {V} (k : string) (v : V) (m : t V) : t V :=
  match m with
  | [] => [(k, v)]
  | (k', v') :: m' =>
      if decide (k' = k) then (k, v) :: m' else (k', v') :: set k v m'
  end.

Definition values {V} (m : t V) : list V := m.*2.

(** The finite map a [Map] denotes, forgetting the insertion order. *)
Definition denote {V} (m : t V) : gmap string V := list_to_map m.
End JsMap.

(** ** The component *)

Section Reconciler.
Context {Timestamp : Type}.

(** [Timestamp.toMillis()] of the SDK. *)
Variable toMillis : Timestamp → Q.

(** The [k]-th reading of [Timestamp.now()] within one run of a producer. *)
Variable Timestamp_now : nat → Timestamp.

(** [useFirestore()]: [true] when the handle is not null. *)
Variable firestore : bool.

(** Whether the promise of [addDocumentNonBlocking] for a mail document
    resolves ([true]) or the call ends in the [catch] branch ([false]). *)
Variable addDocument_resolves : MailData → bool.

Local Abbreviation Candidate := (Candidate Timestamp).
Local Abbreviation Notification := (Notification Timestamp).

(** *** [sendEmailNotification] *)

Definition indent16 : string := "                ".
Definition indent12 : string := "            ".

Definition mailData (notification : Notification) : MailData :=
  let n := core notification in
  {| to := [recipientEmail n];
     mail_message :=
       {| subject := "New Notification: " +:+ substring 0 50 (message n) +:+ "...";
          html :=
            LF +:+ indent16 +:+ "<p>Hello " +:+ or_else (recipientName n) "there" +:+ ",</p>" +:+
            LF +:+ indent16 +:+ "<p>You have a new notification on AltMe:</p>" +:+
            LF +:+ indent16 +:+ "<p><strong>" +:+ message n +:+ "</strong></p>" +:+
            LF +:+ indent16 +:+ "<p><a href=" +:+ dquote +:+ "https://altme.fyi" +:+ link n +:+
              dquote +:+ ">Click here to view it</a></p>" +:+
            LF +:+ indent16 +:+ "<p>Thank you,</p>" +:+
            LF +:+ indent16 +:+ "<p>The AltMe Team</p>" +:+
            LF +:+ indent12 |} |}.

(** The part of [sendEmailNotification] that runs within the caller's turn:
    the guard, and the call of [addDocumentNonBlocking] on the [mail]
    collection.  [Some d] is that call, with its document. *)
Definition sendEmailNotification (sentEmails : gset string) (notification : Notification)
    : option MailData :=
  if negb firestore
     || negb (truthy (recipientEmail (core notification)))
     || bool_decide (id (core notification) ∈ sentEmails)
  then None
  else Some (mailData notification).

(** A mail request, labelled with the identity of the notification that
    caused it (the mail document itself does not carry it). *)
Definition Delivery : Type := string * MailData.

(** The part of [sendEmailNotification] after the [await]: the identity is
    recorded when the promise resolved. *)
Definition sendEmailNotification_resume (sentEmails : gset string) (d : Delivery)
    : gset string :=
  if addDocument_resolves d.2 then {[ d.1 ]} ∪ sentEmails else sentEmails.

(** *** [Array.prototype.sort] with the comparator of [mergeNotifications] *)

Definition compareFn (a b : Notification) : Q :=
  (toMillis (timestamp (core b)) - toMillis (timestamp (core a)))%Q.

(** The sort of the language is stable: an element goes before the first
    element it is not greater than. *)
Fixpoint sort_insert (a : Notification) (l : list Notification) : list Notification :=
  match l with
  | [] => [a]
  | b :: l' => if Qle_bool (compareFn a b) 0 then a :: l else b :: sort_insert a l'
  end.

Definition sort (l : list Notification) : list Notification :=
  foldr sort_insert [] l.

(** *** [mergeNotifications] *)

Definition annotate (readIds : gset string) (n : Candidate) : Notification :=
  {| core := n; isRead := bool_decide (id n ∈ readIds) |}.

(** [prevNotifs.forEach(n => notifsMap.set(n.id, n))].  The map is typed
    [Omit<Notification, 'isRead'>]; the flag an entry of [prevNotifs] still
    carries is overwritten by the final [map]. *)
Definition seedMap (prevNotifs : list Notification) : JsMap.t Candidate :=
  foldl (λ notifsMap n, JsMap.set (id (core n)) (core n) notifsMap) JsMap.empty prevNotifs.

(** The body of [newNotifs.forEach]: the state is the map and the mail
    requests made so far.  [sentEmails] does not change within the loop:
    every [sendEmailNotification] is suspended at its [await]. *)
Definition mergeStep (readIds sentEmails : gset string)
    (st : JsMap.t Candidate * list Delivery) (newNotif : Candidate)
    : JsMap.t Candidate * list Delivery :=
  let isNew := negb (JsMap.has (id newNotif) st.1) in
  let notifsMap := JsMap.set (id newNotif) newNotif st.1 in
  if isNew && negb (bool_decide (id newNotif ∈ readIds)) then
    match sendEmailNotification sentEmails {| core := newNotif; isRead := false |} with
    | Some d => (notifsMap, st.2 ++ [(id newNotif, d)])
    | None => (notifsMap, st.2)
    end
  else (notifsMap, st.2).

(** [notifsMap] after both loops, with the mail requests of the second. *)
Definition mergeLoops (prevNotifs : list Notification) (newNotifs : list Candidate)
    (readIds sentEmails : gset string) : JsMap.t Candidate * list Delivery :=
  foldl (mergeStep readIds sentEmails) (seedMap prevNotifs, []) newNotifs.

(** The updater passed to [setAllNotifications]: the next list and the mail
    requests made. *)
Definition mergeNotifications (prevNotifs : list Notification) (newNotifs : list Candidate)
    (readIds sentEmails : gset string) : list Notification * list Delivery :=
  let r := mergeLoops prevNotifs newNotifs readIds sentEmails in
  (sort (annotate readIds <$> JsMap.values r.1), r.2).

(** *** The viewing session *)

(** The state that lives as long as the component: [allNotifications],
    [sentEmailsRef.current], and the requests added to the [mail]
    collection. *)
Record Session := {
  allNotifications : list Notification;
  sentEmails : gset string;
  mail : list Delivery;
}.

Definition initial : Session :=
  {| allNotifications := []; sentEmails := ∅; mail := [] |}.

(** One merge pass: the updater runs, then the suspended
    [sendEmailNotification]s resume. *)
Definition mergePass (w : Session) (p : list Candidate * gset string) : Session :=
  let r := mergeNotifications (allNotifications w) p.1 p.2 (sentEmails w) in
  {| allNotifications := r.1;
     sentEmails := foldl sendEmailNotification_resume (sentEmails w) r.2;
     mail := mail w ++ r.2 |}.

Definition run (w : Session) (passes : list (list Candidate * gset string)) : Session :=
  foldl mergePass w passes.

(** [notifsMap] at the end of the loops of a pass. *)
Definition notifsMapOf (w : Session) (p : list Candidate * gset string)
    : JsMap.t Candidate :=
  (mergeLoops (allNotifications w) p.1 p.2 (sentEmails w)).1.

(** The mail requests made for an identity. *)
Definition deliveries_of (i : string) (ds : list Delivery) : list Delivery :=
  filter (λ d, d.1 = i) ds.

(** The first candidate of a batch for an identity. *)
Definition firstFor (i : string) (l : list Candidate) : option Candidate :=
  head (filter (λ c, id c = i) l).

(** The mail request the loop makes for a candidate whose identity is new. *)
Definition deliveryFor (readIds sentEmails : gset string) (c : Candidate)
    : list Delivery :=
  if negb (bool_decide (id c ∈ readIds)) then
    match sendEmailNotification sentEmails {| core := c; isRead := false |} with
    | Some d => [(id c, d)]
    | None => []
    end
  else [].

(** *** [unreadCount] and [handleMarkAsRead] *)

Definition unreadCount (allNotifications : list Notification) : nat :=
  length (filter (λ n, isRead n = false) allNotifications).

(** [updateDocumentNonBlocking(userDocRef, {readNotificationIds:
    arrayUnion(...ids)})]. *)
Record UpdateDocument := {
  update_path : list string;
  readNotificationIds_arrayUnion : list string;
}.

(** [user] is the uid of [useUser()], when there is a user. *)
Definition handleMarkAsRead (user : option string) (allNotifications : list Notification)
    : list UpdateDocument :=
  match user with
  | Some uid =>
      if negb firestore || (length allNotifications =? 0) then []
      else
        let unreadIds :=
          (λ n, id (core n)) <$> filter (λ n, isRead n = false) allNotifications in
        if length unreadIds =? 0 then []
        else [ {| update_path := ["users"; uid];
                  readNotificationIds_arrayUnion := unreadIds |} ]
  | None => []
  end.

(** What the store does with an [arrayUnion]: the elements not yet in the
    stored array are appended, once each. *)
Definition arrayUnion (stored ids : list string) : list string :=
  foldl (λ acc i, if bool_decide (i ∈ acc) then acc else acc ++ [i]) stored ids.

Definition applyUpdate (stored : list string) (u : UpdateDocument) : list string :=
  arrayUnion stored (readNotificationIds_arrayUnion u).

(** *** Candidate producers *)

(** A statement of a producer acts on its local array [newNotifications]
    and on the number of [Timestamp.now()] readings made so far. *)
Record ProducerState := {
  newNotifications : list Candidate;
  readings : nat;
}.

Definition Producer : Type := ProducerState → ProducerState.

Definition skip : Producer := λ s, s.

(** [newNotifications.push(c)]. *)
Definition push (c : Candidate) : Producer :=
  λ s, {| newNotifications := newNotifications s ++ [c]; readings := readings s |}.

(** [newNotifications.push({ ..., timestamp: Timestamp.now(), ... })]. *)
Definition push_now (c : Timestamp → Candidate) : Producer :=
  λ s, {| newNotifications := newNotifications s ++ [c (Timestamp_now (readings s))];
          readings := S (readings s) |}.

Definition when (b : bool) (p : Producer) : Producer := if b then p else skip.

Definition block (ps : list Producer) : Producer :=
  λ s, foldl (λ s p, p s) s ps.

Definition produce (p : Producer) : list Candidate :=
  newNotifications (p {| newNotifications := []; readings := 0 |}).

(** [`${n}`] for a counter: its decimal digits.  The counters are whole
    numbers of the store; the template prints the decimal digits of one up to
    2^53 in absolute value, as here.  Beyond that, and for a fraction, the
    conversion of the language differs (an exponent from 10^21 on), and no
    property below states a message for such a counter. *)
Definition number (n : option Z) : string := from_option pretty "undefined" n.

Definition adminEmail : string := "ayn.eee.11@gmail.com".

(** The generic gig notification, pushed where the lookup is empty and in
    the [catch] branch. *)
Definition oneNewGig (uid : string) (fetchedUserData : User.t) : Producer :=
  push_now (λ now,
    {| id := "gigs-" +:+ uid; type := gig_hired;
       message := "You have 1 new gig!"; link := "/requests"; timestamp := now;
       recipientEmail := User.email fetchedUserData;
       recipientName := User.name fetchedUserData |}).

(** The handler of the user document's snapshot, up to its call of
    [mergeNotifications].  [gigSnap] is the outcome of the [getDocs] of
    the in-progress request hired to the user; it is awaited only when the
    counter is 1. *)
Definition userDocProducer (uid : string) (fetchedUserData : User.t)
    (gigSnap : QueryResult Timestamp) : Producer :=
  if String.eqb (User.role fetchedUserData) "admin" then
    block [
      when (positive_count (User.openReportsCount fetchedUserData))
        (push_now (λ now,
          {| id := "reports-" +:+ uid; type := new_report;
             message := "There are " +:+ number (User.openReportsCount fetchedUserData)
                        +:+ " open user reports to review.";
             link := "/admin/reports"; timestamp := now;
             recipientEmail := Some adminEmail;
             recipientName := User.name fetchedUserData |}));
      when (positive_count (User.unreadContactSubmissionsCount fetchedUserData))
        (push_now (λ now,
          {| id := "contact-" +:+ uid; type := new_contact_submission;
             message := "You have "
                        +:+ number (User.unreadContactSubmissionsCount fetchedUserData)
                        +:+ " new contact submission(s).";
             link := "/admin/inbox"; timestamp := now;
             recipientEmail := Some adminEmail;
             recipientName := User.name fetchedUserData |}));
      when (positive_count (User.disputedProjectsCount fetchedUserData))
        (push_now (λ now,
          {| id := "disputes-" +:+ uid; type := project_disputed;
             message := "There are " +:+ number (User.disputedProjectsCount fetchedUserData)
                        +:+ " disputed projects requiring review.";
             link := "/admin/projects"; timestamp := now;
             recipientEmail := Some adminEmail;
             recipientName := User.name fetchedUserData |})) ]
  else
    let unreadGigsCount := default 0%Z (User.unreadGigsCount fetchedUserData) in
    block [
      when (0 <? unreadGigsCount)%Z
        (if (unreadGigsCount =? 1)%Z then
           match gigSnap with
           | Resolved (gig :: _) =>
               push_now (λ now,
                 {| id := "gig-" +:+ template (ProjectRequest.id gig); type := gig_hired;
                    message := "You've been hired for " +:+ dquote
                               +:+ ProjectRequest.title gig +:+ dquote +:+ "!";
                    link := "/requests/" +:+ template (ProjectRequest.id gig);
                    timestamp := now;
                    recipientEmail := User.email fetchedUserData;
                    recipientName := User.name fetchedUserData |})
           | Resolved [] => oneNewGig uid fetchedUserData
           | Rejected => oneNewGig uid fetchedUserData
           end
         else
           push_now (λ now,
             {| id := "gigs-" +:+ uid; type := gig_hired;
                message := "You have " +:+ pretty unreadGigsCount +:+ " new gigs!";
                link := "/requests"; timestamp := now;
                recipientEmail := User.email fetchedUserData;
                recipientName := User.name fetchedUserData |}));
      when (positive_count (User.pendingReviewCount fetchedUserData))
        (push_now (λ now,
          {| id := "review-multi-" +:+ uid; type := review_request;
             message := "You have " +:+ number (User.pendingReviewCount fetchedUserData)
                        +:+ " project(s) to review.";
             link := "/requests"; timestamp := now;
             recipientEmail := User.email fetchedUserData;
             recipientName := User.name fetchedUserData |})) ].

(** [new Set(userData?.readNotificationIds || [])]. *)
Definition readIdsOf (userData : option User.t) : gset string :=
  list_to_set (default [] (userData ≫= User.readNotificationIds)).

(** [request.id] of [{ id: doc.id, ...doc.data() }]: an [id] field of the
    data overrides the document's. *)
Definition request_id (doc : QueryDocumentSnapshot Timestamp) : string :=
  default (doc_id doc) (ProjectRequest.id (doc_data doc)).

(** The body of [snapshot.docs.forEach] in [processProjectSnapshot].
    [userData] is the component state the closure holds. *)
Definition processDoc (uid : string) (userData : option User.t)
    (doc : QueryDocumentSnapshot Timestamp) : Producer :=
  let request := doc_data doc in
  let rid := request_id doc in
  let title := dquote +:+ ProjectRequest.title request +:+ dquote in
  let status := ProjectRequest.status request in
  let email := userData ≫= User.email in
  let name := userData ≫= User.name in
  block [
    when (String.eqb (ProjectRequest.userId request) uid) (block [
      when (positive_count (ProjectRequest.unreadBidsCount request))
        (push_now (λ now,
          {| id := "bid-" +:+ rid; type := new_bid;
             message := number (ProjectRequest.unreadBidsCount request)
                        +:+ " new bid(s) on " +:+ title;
             link := "/requests/" +:+ rid; timestamp := now;
             recipientEmail := email; recipientName := name |}));
      when (String.eqb status "Delivered" && negb (ProjectRequest.clientHasReviewed request))
        (push_now (λ now,
          {| id := "delivery-" +:+ rid; type := new_delivery;
             message := "Files have been delivered for " +:+ title;
             link := "/requests/" +:+ rid; timestamp := now;
             recipientEmail := email; recipientName := name |}));
      match ProjectRequest.photographerRespondedAt request with
      | Some respondedAt =>
          if String.eqb status "Pending" then
            push
              {| id := "booking-approved-" +:+ rid; type := direct_booking_approved;
                 message := "Your booking request for " +:+ title
                            +:+ " was approved! Please complete the payment.";
                 link := "/requests/" +:+ rid; timestamp := respondedAt;
                 recipientEmail := email; recipientName := name |}
          else if String.eqb status "Disabled" then
            push
              {| id := "booking-declined-" +:+ rid; type := direct_booking_declined;
                 message := "Your booking request for " +:+ title +:+ " was declined.";
                 link := "/requests"; timestamp := respondedAt;
                 recipientEmail := email; recipientName := name |}
          else skip
      | None => skip
      end ]);
    when (bool_decide (ProjectRequest.hiredPhotographerId request = Some uid)) (block [
      when (String.eqb status "Pending"
            && negb (bool_decide (is_Some (ProjectRequest.photographerRespondedAt request))))
        (push
          {| id := "booking-" +:+ rid; type := direct_booking_request;
             message := "New direct booking request for " +:+ title;
             link := "/requests/" +:+ rid;
             timestamp := ProjectRequest.createdAt request;
             recipientEmail := email; recipientName := name |});
      when (String.eqb status "Delivered"
            && ProjectRequest.clientHasReviewed request
            && negb (ProjectRequest.photographerHasReviewed request))
        (push_now (λ now,
          {| id := "review-" +:+ rid; type := review_request;
             message := "The client has left a review for " +:+ title
                        +:+ ". Please leave your review to complete the project.";
             link := "/requests/" +:+ rid; timestamp := now;
             recipientEmail := email; recipientName := name |})) ]);
    when (String.eqb status "Completed"
          && negb (ProjectRequest.clientHasReviewed request
                   && ProjectRequest.photographerHasReviewed request))
      (push_now (λ now,
        {| id := "completed-" +:+ rid; type := project_completed;
           message := "Project " +:+ title +:+ " is complete!";
           link := "/requests/" +:+ rid; timestamp := now;
           recipientEmail := email; recipientName := name |}));
    match ProjectRequest.disputeResolvedAt request with
    | Some resolvedAt =>
        let message :=
          if bool_decide (ProjectRequest.disputeResolution request = Some "refunded") then
            "Dispute for " +:+ title +:+ ": The client has been refunded."
          else if bool_decide (ProjectRequest.disputeResolution request = Some "paid") then
            "Dispute for " +:+ title +:+ ": The photographer has been paid."
          else "Dispute for " +:+ title +:+ " has been resolved." in
        push
          {| id := "dispute-res-" +:+ rid; type := dispute_resolved;
             message := message;
             link := "/requests/" +:+ rid; timestamp := resolvedAt;
             recipientEmail := email; recipientName := name |}
    | None => skip
    end ].

Definition processProjectSnapshot (uid : string) (userData : option User.t)
    (docs : list (QueryDocumentSnapshot Timestamp)) : Producer :=
  block (processDoc uid userData <$> docs).

(** *** The snapshot handlers *)

(** The user document's handler: nothing happens unless [doc.exists()]. *)
Definition onUserDocSnapshot (uid : string) (doc : option User.t)
    (gigSnap : QueryResult Timestamp) (w : Session) : Session :=
  match doc with
  | Some fetchedUserData =>
      mergePass w (produce (userDocProducer uid fetchedUserData gigSnap),
                   readIdsOf (Some fetchedUserData))
  | None => w
  end.

(** The handlers of the two request queries. *)
Definition onProjectSnapshot (uid : string) (userData : option User.t)
    (docs : list (QueryDocumentSnapshot Timestamp)) (w : Session) : Session :=
  mergePass w (produce (processProjectSnapshot uid userData docs), readIdsOf userData).

(** *** The chat-room handler *)

(** The test of both loops over the rooms: [room.lastMessage &&
    room.hasUnreadMessages && room.hasUnreadMessages[user.uid] &&
    room.lastMessage.senderId !== user.uid].  [Some m] is the last message of
    a room that passes it. *)
Definition unreadFromOther (uid : string) (room : ChatRoom.t Timestamp)
    : option (LastMessage Timestamp) :=
  match ChatRoom.lastMessage room with
  | Some m =>
      if default false (ChatRoom.hasUnreadMessages room ≫= (λ flags, flags !! uid))
         && negb (String.eqb (senderId m) uid)
      then Some m else None
  | None => None
  end.

(** The first loop: the senders that [usersMap] does not have, once each,
    in the order of the rooms. *)
Definition userIdsToFetch (uid : string) (usersMap : gmap string User.t)
    (rooms : list (ChatRoom.t Timestamp)) : list string :=
  foldl (λ ids room,
           match unreadFromOther uid room with
           | Some m =>
               if bool_decide (is_Some (usersMap !! senderId m)) then ids
               else if bool_decide (senderId m ∈ ids) then ids
               else ids ++ [senderId m]
           | None => ids
           end) [] rooms.

(** The fetch of those users.  [usersSnap] is the outcome of the [getDocs],
    [None] for a rejection; the result is the argument of [setUsersMap], when
    it is called. *)
Definition fetchUsers (usersMap : gmap string User.t) (ids : list string)
    (usersSnap : option (list (string * User.t))) : option (gmap string User.t) :=
  if 0 <? length ids then
    match usersSnap with
    | Some docs => Some (foldl (λ newUsers d, <[d.1 := d.2]> newUsers) usersMap docs)
    | None => None
    end
  else None.

(** The candidate of a room that passes the test, given its sender's
    document. *)
Definition chatCandidate (userData : option User.t) (room : ChatRoom.t Timestamp)
    (m : LastMessage Timestamp) (sender : option User.t) : Candidate :=
  let senderName := or_else (sender ≫= User.name) "Someone" in
  {| id := "msg-" +:+ ChatRoom.id room;
     type := if ChatRoom.isProjectChat room then project_chat else direct_message;
     message :=
       if ChatRoom.isProjectChat room
       then "New message from " +:+ senderName +:+ " in your project chat."
       else "New message from " +:+ senderName +:+ ".";
     link :=
       if ChatRoom.isProjectChat room
       then "/requests/" +:+ template (ChatRoom.requestId room)
       else "/messages/" +:+ ChatRoom.id room;
     timestamp := sentAt m;
     recipientEmail := userData ≫= User.email;
     recipientName := userData ≫= User.name |}.

(** The second loop.  [usersMap] is the map the closure holds, not the one
    just fetched.  [getDoc k i] is the outcome of the [k]-th [getDoc] of the
    run, asked for the user [i]; a rejection ends the handler, and the result
    is [None]. *)
Fixpoint chatLoop (uid : string) (userData : option User.t)
    (usersMap : gmap string User.t) (getDoc : nat → string → DocResult)
    (calls : nat) (chatNotifications : list Candidate)
    (rooms : list (ChatRoom.t Timestamp)) : option (list Candidate) :=
  match rooms with
  | [] => Some chatNotifications
  | room :: rooms' =>
      match unreadFromOther uid room with
      | Some m =>
          match usersMap !! senderId m with
          | Some sender =>
              chatLoop uid userData usersMap getDoc calls
                (chatNotifications ++ [chatCandidate userData room m (Some sender)]) rooms'
          | None =>
              match getDoc calls (senderId m) with
              | DocResolved sender =>
                  chatLoop uid userData usersMap getDoc (S calls)
                    (chatNotifications ++ [chatCandidate userData room m sender]) rooms'
              | DocRejected => None
              end
          end
      | None => chatLoop uid userData usersMap getDoc calls chatNotifications rooms'
      end
  end.

Definition chatProducer (uid : string) (userData : option User.t)
    (usersMap : gmap string User.t) (getDoc : nat → string → DocResult)
    (rooms : list (ChatRoom.t Timestamp)) : option (list Candidate) :=
  chatLoop uid userData usersMap getDoc 0 [] rooms.

(** The handler of the chat rooms' snapshot: the session and [usersMap]
    after it. *)
Definition onChatRoomsSnapshot (uid : string) (userData : option User.t)
    (usersMap : gmap string User.t) (usersSnap : option (list (string * User.t)))
    (getDoc : nat → string → DocResult) (rooms : list (ChatRoom.t Timestamp))
    (w : Session) : Session * gmap string User.t :=
  let usersMap' :=
    default usersMap (fetchUsers usersMap (userIdsToFetch uid usersMap rooms) usersSnap) in
  match chatProducer uid userData usersMap getDoc rooms with
  | Some chatNotifications =>
      (mergePass w (chatNotifications, readIdsOf userData), usersMap')
  | None => (w, usersMap')
  end.

(** *** [handleItemSelect] and [handleOpenChange] *)

(** What a handler of the menu does: the documents it updates, the links it
    pushes to the router, and whether the menu is open after it. *)
Record MenuEffects := {
  updates : list UpdateDocument;
  pushed : list string;
  isOpen : bool;
}.

(** [isOpen] is the state before the handler. *)
Definition handleItemSelect (user : option string) (isOpen : bool)
    (link notifId : string) : MenuEffects :=
  match user with
  | Some uid =>
      if negb firestore then {| updates := []; pushed := []; isOpen := isOpen |}
      else
        {| updates := [ {| update_path := ["users"; uid];
                           readNotificationIds_arrayUnion := [notifId] |} ];
           pushed := [link];
           isOpen := false |}
  | None => {| updates := []; pushed := []; isOpen := isOpen |}
  end.

Definition handleOpenChange (user : option string) (allNotifications : list Notification)
    (open : bool) : MenuEffects :=
  {| updates :=
       if negb open && (0 <? unreadCount allNotifications)
       then handleMarkAsRead user allNotifications else [];
     pushed := [];
     isOpen := open |}.

(** [hasUnread], which shows the badge. *)
Definition hasUnread (allNotifications : list Notification) : bool :=
  0 <? unreadCount allNotifications.

(** *** The merge as the specification words it

    The mapping keyed by identity: seeded from the existing list, then every
    new candidate inserted over what is there. *)
Definition mergeMapping (prevNotifs : list Notification) (newNotifs : list Candidate)
    : gmap string Candidate :=
  foldl (λ m n, <[id n := n]> m)
        (foldl (λ m n, <[id (core n) := core n]> m) ∅ prevNotifs)
        newNotifs.

(** The order of the output: generation timestamps go down. *)
Definition descending (a b : Notification) : Prop :=
  (toMillis (timestamp (core b)) <= toMillis (timestamp (core a)))%Q.

(** The identities of a list of notifications, and of a batch. *)
Definition identities (l : list Notification) : list string :=
  (λ n, id (core n)) <$> l.

(** A reconciled list holds one entry per identity. *)
Definition reconciled (l : list Notification) : Prop := NoDup (identities l).

(** The delivery rule as the specification words it: a request is made
    on the first pass in which the identity is in the batch, not in the list
    and not in the read set, and so it is made exactly once. *)
Definition delivered_exactly_once (passes : list (list Candidate * gset string))
    (i : string) : Prop :=
  ∀ before p after,
    passes = before ++ p :: after →
    i ∈ id <$> p.1 →
    i ∉ identities (allNotifications (run initial before)) →
    i ∉ p.2 →
    length (deliveries_of i (mail (run initial passes))) = 1.

(** The case of a candidate without recipient email as the specification
    words it: the candidates of a batch for an identity carry no email, and
    yet a later candidate of the identity that carries one can still be
    delivered, that is, some passes that follow the batch make a mail request
    for the identity. *)
Definition later_delivery_possible (w : Session) (batch : list Candidate)
    (readIds : gset string) (i : string) : Prop :=
  i ∈ id <$> batch →
  (∀ c, c ∈ batch → id c = i → truthy (recipientEmail c) = false) →
  ∃ later,
    length (deliveries_of i (mail w))
    < length (deliveries_of i (mail (run (mergePass w (batch, readIds)) later))).

(** Marking all read as the specification words it: one write when there
    is an unread entry, none otherwise. *)
Definition markAllRead_one_write (user : option string)
    (notifs : list Notification) : Prop :=
  let unreadIds := (λ n, id (core n)) <$> filter (λ n, isRead n = false) notifs in
  (unreadIds ≠ [] →
     ∃ u, handleMarkAsRead user notifs = [u]
          ∧ readNotificationIds_arrayUnion u = unreadIds)
  ∧ (unreadIds = [] → handleMarkAsRead user notifs = []).

(** ** Properties *)

(** *** The map *)

Lemma JsMap_set_keys {V} k (v : V) (m : JsMap.t V) :
  (JsMap.set k v m).*1 = if decide (k ∈ m.*1) then m.*1 else m.*1 ++ [k].
Proof.
  induction m as [|[k' v'] m IH]; csimpl.
  - done.
  - destruct (decide (k' = k)) as [->|Hne]; csimpl.
    + rewrite decide_True; [done | left].
    + rewrite IH. destruct (decide (k ∈ m.*1)) as [Hin|Hnin].
      * rewrite decide_True; [done | by right].
      * rewrite decide_False; [done |].
        rewrite elem_of_cons. intros [?|?]; congruence.
Qed.

Lemma JsMap_set_NoDup {V} k (v : V) (m : JsMap.t V) :
  NoDup m.*1 → NoDup (JsMap.set k v m).*1.
Proof.
  intros Hnd. rewrite JsMap_set_keys. case_decide; [done |].
  apply NoDup_app. split_and!; [done | | apply NoDup_singleton].
  intros x Hx Hx'. apply list_elem_of_singleton in Hx'. by subst.
Qed.

Lemma JsMap_set_denote {V} k (v : V) (m : JsMap.t V) :
  JsMap.denote (JsMap.set k v m) = <[k := v]> (JsMap.denote m).
Proof.
  unfold JsMap.denote. induction m as [|[k' v'] m IH]; csimpl; [done |].
  destruct (decide (k' = k)) as [->|Hne]; csimpl.
  - by rewrite insert_insert_eq.
  - rewrite IH. by apply insert_insert_ne.
Qed.

Lemma JsMap_has_true {V} k (m : JsMap.t V) : JsMap.has k m = true ↔ k ∈ m.*1.
Proof. unfold JsMap.has. by rewrite bool_decide_eq_true. Qed.

(** A map with unique keys is its key order and its denotation. *)
Lemma JsMap_ext {V} (m1 m2 : JsMap.t V) :
  NoDup m1.*1 → m1.*1 = m2.*1 → JsMap.denote m1 = JsMap.denote m2 → m1 = m2.
Proof.
  unfold JsMap.denote. revert m2.
  induction m1 as [|[k v] m1 IH]; intros [|[k2 v2] m2] Hnd Hkeys Hd;
    csimpl in *; try discriminate; [done |].
  injection Hkeys as -> Hkeys.
  apply NoDup_cons in Hnd as [Hk Hnd].
  assert (v = v2) as <-.
  { apply (f_equal (λ m, m !! k2)) in Hd. rewrite !lookup_insert_eq in Hd. congruence. }
  f_equal. apply IH; [done.. |].
  apply map_eq. intros j. destruct (decide (j = k2)) as [->|Hne].
  - rewrite !(not_elem_of_list_to_map_1 _ k2); [done | by rewrite <- Hkeys | done].
  - apply (f_equal (λ m, m !! j)) in Hd. by rewrite !lookup_insert_ne in Hd.
Qed.

(** *** The sort *)

Lemma compareFn_le a b : Qle_bool (compareFn a b) 0 = true ↔ descending a b.
Proof.
  unfold compareFn, descending. rewrite Qle_bool_iff.
  split; intros H.
  - apply Qle_minus_iff in H. apply Qle_minus_iff.
    eapply Qle_trans; [exact H |]. apply Qle_lteq. right. ring.
  - apply Qle_minus_iff in H. apply Qle_minus_iff.
    eapply Qle_trans; [exact H |]. apply Qle_lteq. right. ring.
Qed.

Lemma descending_total a b : descending a b ∨ descending b a.
Proof.
  unfold descending.
  destruct (Qlt_le_dec (toMillis (timestamp (core a))) (toMillis (timestamp (core b))))
    as [Hlt|Hle]; [right; by apply Qlt_le_weak | by left].
Qed.

Lemma descending_trans a b c : descending a b → descending b c → descending a c.
Proof. unfold descending. intros Hab Hbc. by eapply Qle_trans. Qed.

Lemma sort_insert_perm a l : sort_insert a l ≡ₚ a :: l.
Proof.
  induction l as [|b l IH]; simpl; [done |].
  destruct (Qle_bool (compareFn a b) 0); [done |].
  rewrite IH. apply Permutation_swap.
Qed.

Lemma sort_perm l : sort l ≡ₚ l.
Proof.
  induction l as [|a l IH]; simpl; [done |].
  by rewrite sort_insert_perm, IH.
Qed.

Lemma sort_insert_sorted a l :
  StronglySorted descending l → StronglySorted descending (sort_insert a l).
Proof.
  induction 1 as [|b l Hl IH Hb]; simpl.
  - repeat constructor.
  - destruct (Qle_bool (compareFn a b) 0) eqn:Hab.
    + apply compareFn_le in Hab. constructor; [by constructor |].
      constructor; [done |].
      eapply Forall_impl; [exact Hb |]. intros c Hc. by eapply descending_trans.
    + assert (descending b a) as Hba.
      { destruct (descending_total a b) as [H|H]; [|done].
        apply compareFn_le in H. congruence. }
      constructor; [done |].
      rewrite sort_insert_perm. by constructor.
Qed.

Lemma sort_sorted l : StronglySorted descending (sort l).
Proof.
  induction l as [|a l IH]; simpl; [constructor | by apply sort_insert_sorted].
Qed.

(** Sorting a list that is in order returns it. *)
Lemma sort_of_sorted l : StronglySorted descending l → sort l = l.
Proof.
  induction 1 as [|a l Hl IH Ha]; simpl; [done |].
  rewrite IH. destruct l as [|b l]; simpl; [done |].
  apply Forall_cons in Ha as [Hab _].
  apply compareFn_le in Hab. by rewrite Hab.
Qed.

(** *** The loops of the merge *)

(** Every value of the map sits under its own identity. *)
Definition keyed (m : JsMap.t Candidate) : Prop :=
  Forall (λ kc, id kc.2 = kc.1) m.

Definition setAll (m : JsMap.t Candidate) (l : list Candidate) : JsMap.t Candidate :=
  foldl (λ m c, JsMap.set (id c) c m) m l.

Lemma JsMap_set_keyed (c : Candidate) m : keyed m → keyed (JsMap.set (id c) c m).
Proof.
  unfold keyed. induction 1 as [|[k v] m Hkv Hm IH]; csimpl.
  - by repeat constructor.
  - case_decide; constructor; done.
Qed.

Lemma setAll_NoDup m l : NoDup m.*1 → NoDup (setAll m l).*1.
Proof.
  revert m. induction l as [|c l IH]; intros m Hm; simpl; [done |].
  apply IH. by apply JsMap_set_NoDup.
Qed.

Lemma setAll_keyed m l : keyed m → keyed (setAll m l).
Proof.
  revert m. induction l as [|c l IH]; intros m Hm; simpl; [done |].
  apply IH. by apply JsMap_set_keyed.
Qed.

Lemma setAll_denote m l :
  JsMap.denote (setAll m l) = foldl (λ m n, <[id n := n]> m) (JsMap.denote m) l.
Proof.
  revert m. induction l as [|c l IH]; intros m; simpl; [done |].
  by rewrite IH, JsMap_set_denote.
Qed.

Lemma setAll_keys_incl m l k : k ∈ m.*1 → k ∈ (setAll m l).*1.
Proof.
  revert m. induction l as [|c l IH]; intros m Hk; simpl; [done |].
  apply IH. rewrite JsMap_set_keys. case_decide; [done |].
  apply elem_of_app. by left.
Qed.

Lemma setAll_keys_new m l c : c ∈ l → id c ∈ (setAll m l).*1.
Proof.
  revert m. induction l as [|c' l IH]; intros m Hc; [by apply elem_of_nil in Hc |].
  apply elem_of_cons in Hc as [->|Hc]; simpl; [| by apply IH].
  apply setAll_keys_incl. rewrite JsMap_set_keys. case_decide; [done |].
  apply elem_of_app. right. apply list_elem_of_singleton. done.
Qed.

Lemma setAll_keys_inv m l k :
  k ∈ (setAll m l).*1 → k ∈ m.*1 ∨ k ∈ id <$> l.
Proof.
  revert m. induction l as [|c l IH]; intros m Hk; simpl in *; [by left |].
  apply IH in Hk as [Hk|Hk].
  - rewrite JsMap_set_keys in Hk. case_decide; [by left |].
    apply elem_of_app in Hk as [Hk|Hk]; [by left |].
    apply list_elem_of_singleton in Hk as ->. right. csimpl. left.
  - right. csimpl. by right.
Qed.

(** Present keys keep their places. *)
Lemma setAll_keys_same m l :
  (∀ c, c ∈ l → id c ∈ m.*1) → (setAll m l).*1 = m.*1.
Proof.
  revert m. induction l as [|c l IH]; intros m Hin; simpl; [done |].
  assert ((JsMap.set (id c) c m).*1 = m.*1) as Hkeys.
  { rewrite JsMap_set_keys, decide_True; [done |]. apply Hin. left. }
  rewrite IH, Hkeys; [done |].
  intros c' Hc'. rewrite Hkeys. apply Hin. by right.
Qed.

Lemma seedMap_setAll prevNotifs : seedMap prevNotifs = setAll JsMap.empty (core <$> prevNotifs).
Proof.
  unfold seedMap, setAll. generalize (@JsMap.empty Candidate).
  induction prevNotifs as [|n l IH]; intros m; csimpl; [done | apply IH].
Qed.

Lemma mergeStep_map readIds sent st l :
  (foldl (mergeStep readIds sent) st l).1 = setAll st.1 l.
Proof.
  revert st. induction l as [|c l IH]; intros st; simpl; [done |].
  rewrite IH. f_equal. unfold mergeStep.
  destruct (_ && _); [destruct (sendEmailNotification _ _) |]; done.
Qed.

Lemma mergeLoops_map prevNotifs newNotifs readIds sent :
  (mergeLoops prevNotifs newNotifs readIds sent).1
  = setAll (setAll JsMap.empty (core <$> prevNotifs)) newNotifs.
Proof. unfold mergeLoops. by rewrite mergeStep_map, seedMap_setAll. Qed.

Lemma mergeLoops_NoDup prevNotifs newNotifs readIds sent :
  NoDup (mergeLoops prevNotifs newNotifs readIds sent).1.*1.
Proof. rewrite mergeLoops_map. do 2 apply setAll_NoDup. constructor. Qed.

Lemma mergeLoops_keyed prevNotifs newNotifs readIds sent :
  keyed (mergeLoops prevNotifs newNotifs readIds sent).1.
Proof. rewrite mergeLoops_map. do 2 apply setAll_keyed. constructor. Qed.

Lemma mergeLoops_denote prevNotifs newNotifs readIds sent :
  JsMap.denote (mergeLoops prevNotifs newNotifs readIds sent).1
  = mergeMapping prevNotifs newNotifs.
Proof.
  rewrite mergeLoops_map, !setAll_denote. unfold mergeMapping. f_equal.
  by rewrite foldl_fmap.
Qed.

Lemma keyed_identities m : keyed m → id <$> JsMap.values m = m.*1.
Proof.
  unfold JsMap.values. induction 1 as [|[k c] m Hkc Hm IH]; csimpl; [done |].
  simpl in Hkc. by rewrite IH, Hkc.
Qed.

Lemma identities_annotate readIds l : identities (annotate readIds <$> l) = id <$> l.
Proof. unfold identities. rewrite <- list_fmap_compose. done. Qed.

Lemma JsMap_values_denote (m : JsMap.t Candidate) :
  NoDup m.*1 → JsMap.values m ≡ₚ (map_to_list (JsMap.denote m)).*2.
Proof.
  intros Hnd. unfold JsMap.values, JsMap.denote.
  by rewrite (map_to_list_to_map m Hnd).
Qed.

(** The output of a merge, in terms of the map of its loops. *)
Lemma mergeNotifications_out prevNotifs newNotifs readIds sent :
  (mergeNotifications prevNotifs newNotifs readIds sent).1
  = sort (annotate readIds <$>
            JsMap.values (mergeLoops prevNotifs newNotifs readIds sent).1).
Proof. done. Qed.

Lemma mergeNotifications_identities prevNotifs newNotifs readIds sent :
  identities (mergeNotifications prevNotifs newNotifs readIds sent).1
  ≡ₚ (mergeLoops prevNotifs newNotifs readIds sent).1.*1.
Proof.
  rewrite mergeNotifications_out. unfold identities at 1.
  rewrite sort_perm. fold (identities (annotate readIds <$>
    JsMap.values (mergeLoops prevNotifs newNotifs readIds sent).1)).
  rewrite identities_annotate, keyed_identities; [done |].
  apply mergeLoops_keyed.
Qed.

(** Every list a merge returns is reconciled. *)
Lemma mergeNotifications_reconciled prevNotifs newNotifs readIds sent :
  reconciled (mergeNotifications prevNotifs newNotifs readIds sent).1.
Proof.
  unfold reconciled. rewrite mergeNotifications_identities.
  apply mergeLoops_NoDup.
Qed.

Lemma mergeMapping_keyed prevNotifs newNotifs k c :
  mergeMapping prevNotifs newNotifs !! k = Some c → id c = k.
Proof.
  rewrite <- (mergeLoops_denote prevNotifs newNotifs ∅ ∅).
  unfold JsMap.denote. intros Hk. apply elem_of_list_to_map_2 in Hk.
  pose proof (mergeLoops_keyed prevNotifs newNotifs ∅ ∅) as Hkeyed.
  unfold keyed in Hkeyed. rewrite Forall_forall in Hkeyed.
  by apply Hkeyed in Hk.
Qed.

(** C1.  The list a merge returns is a rearrangement of the values of the
    identity-keyed mapping (seeded from the existing list, each new
    candidate written over it): the entries without their flags are exactly
    those values, and each entry is such a value, with all its fields,
    together with [isRead = (identity in readIds)].  The list is ordered by
    descending generation timestamp, and every value of the mapping sits
    under its own identity. *)
Theorem mergeNotifications_spec prevNotifs newNotifs readIds sent :
  let out := (mergeNotifications prevNotifs newNotifs readIds sent).1 in
  let values := (map_to_list (mergeMapping prevNotifs newNotifs)).*2 in
  out ≡ₚ (λ c, {| core := c; isRead := bool_decide (id c ∈ readIds) |}) <$> values
  ∧ core <$> out ≡ₚ values
  ∧ StronglySorted descending out
  ∧ (∀ n, n ∈ out → isRead n = bool_decide (id (core n) ∈ readIds))
  ∧ (∀ k c, mergeMapping prevNotifs newNotifs !! k = Some c → id c = k).
Proof.
  intros out values. subst out values. rewrite mergeNotifications_out.
  assert (sort (annotate readIds <$>
            JsMap.values (mergeLoops prevNotifs newNotifs readIds sent).1)
          ≡ₚ (λ c, {| core := c; isRead := bool_decide (id c ∈ readIds) |})
               <$> (map_to_list (mergeMapping prevNotifs newNotifs)).*2) as Hperm.
  { rewrite sort_perm, JsMap_values_denote by apply mergeLoops_NoDup.
    by rewrite mergeLoops_denote. }
  split_and!.
  - exact Hperm.
  - rewrite Hperm, <- list_fmap_compose. by rewrite list_fmap_id.
  - apply sort_sorted.
  - intros n Hn. rewrite Hperm in Hn.
    apply list_elem_of_fmap in Hn as (c & -> & _). done.
  - apply mergeMapping_keyed.
Qed.

(** *** The unread counter *)

Lemma unreadCount_perm l1 l2 : l1 ≡ₚ l2 → unreadCount l1 = unreadCount l2.
Proof. unfold unreadCount. by intros ->. Qed.

Lemma size_add_unread (x : string) (X R : gset string) :
  x ∉ X → x ∉ R → size (({[x]} ∪ X) ∖ R) = S (size (X ∖ R)).
Proof.
  intros HX HR.
  assert (({[x]} ∪ X) ∖ R = {[x]} ∪ X ∖ R) as -> by set_solver.
  rewrite size_union by set_solver. by rewrite size_singleton.
Qed.

Lemma size_add_read (x : string) (X R : gset string) :
  x ∈ R → ({[x]} ∪ X) ∖ R = X ∖ R.
Proof. set_solver. Qed.

Lemma unreadCount_annotate readIds (l : list Candidate) :
  NoDup (id <$> l) →
  unreadCount (annotate readIds <$> l)
  = size ((list_to_set (id <$> l) : gset string) ∖ readIds).
Proof.
  unfold unreadCount. induction l as [|c l IH]; csimpl; intros Hnd.
  - by rewrite difference_disjoint_L, size_empty by set_solver.
  - apply NoDup_cons in Hnd as [Hc Hnd]. rewrite filter_cons. simpl.
    destruct (decide (id c ∈ readIds)) as [Hin|Hnin].
    + rewrite bool_decide_eq_true_2 by done. rewrite decide_False by done.
      rewrite IH by done. by rewrite size_add_read.
    + rewrite bool_decide_eq_false_2 by done. rewrite decide_True by done.
      simpl. rewrite IH by done. rewrite size_add_unread; [done | | done].
      by rewrite elem_of_list_to_set.
Qed.

(** C3.  For the list a merge returns under the read set [readIds], the
    unread counter is the number of its identities that are not in
    [readIds]. *)
Theorem unreadCount_spec prevNotifs newNotifs readIds sent :
  let out := (mergeNotifications prevNotifs newNotifs readIds sent).1 in
  unreadCount out
  = size ((list_to_set (identities out) : gset string) ∖ readIds).
Proof.
  intros out.
  pose proof (mergeNotifications_identities prevNotifs newNotifs readIds sent) as Hids.
  fold out in Hids.
  assert ((list_to_set (identities out) : gset string)
          = list_to_set (mergeLoops prevNotifs newNotifs readIds sent).1.*1) as ->.
  { apply set_eq. intros k. rewrite !elem_of_list_to_set. by rewrite Hids. }
  subst out. rewrite mergeNotifications_out.
  rewrite (unreadCount_perm _ _ (sort_perm _)).
  rewrite unreadCount_annotate; rewrite keyed_identities by apply mergeLoops_keyed.
  - done.
  - apply mergeLoops_NoDup.
Qed.

(** *** Merging into a reconciled list *)

(** The mapping a batch alone gives. *)
Definition batchMapping (l : list Candidate) : gmap string Candidate :=
  foldl (λ m n, <[id n := n]> m) ∅ l.

Lemma foldl_insert_union (m0 : gmap string Candidate) l :
  foldl (λ m n, <[id n := n]> m) m0 l = batchMapping l ∪ m0.
Proof.
  unfold batchMapping. revert m0.
  induction l as [|c l IH]; intros m0; simpl.
  - by rewrite (left_id_L ∅ (∪)).
  - rewrite IH, (IH (<[id c := c]> ∅)).
    rewrite !insert_union_singleton_l, (right_id_L ∅ (∪)).
    by rewrite (assoc_L (∪)).
Qed.

Lemma batchMapping_dom l k : is_Some (batchMapping l !! k) ↔ k ∈ id <$> l.
Proof.
  unfold batchMapping.
  assert (foldl (λ m n, <[id n := n]> m) ∅ l
          = list_to_map (setAll JsMap.empty l)) as ->
    by (symmetry; apply (setAll_denote JsMap.empty l)).
  split.
  - intros [c Hc]. apply elem_of_list_to_map_2 in Hc.
    apply (list_elem_of_fmap_2 fst) in Hc. simpl in Hc.
    apply setAll_keys_inv in Hc as [Hc|Hc]; [by apply elem_of_nil in Hc | done].
  - intros Hk. apply list_elem_of_fmap in Hk as (c & -> & Hc).
    apply (setAll_keys_new JsMap.empty) in Hc.
    destruct (list_to_map (setAll JsMap.empty l) !! id c) eqn:E; [by eexists |].
    by apply not_elem_of_list_to_map_2 in E.
Qed.

Lemma batchMapping_disjoint l1 l2 :
  (∀ k, k ∈ id <$> l1 → k ∉ id <$> l2) → batchMapping l1 ##ₘ batchMapping l2.
Proof.
  intros Hdisj. apply map_disjoint_spec. intros k c1 c2 H1 H2.
  apply (Hdisj k); apply batchMapping_dom; by eexists.
Qed.

Lemma mergeMapping_union prevNotifs newNotifs :
  mergeMapping prevNotifs newNotifs
  = batchMapping newNotifs ∪ batchMapping (core <$> prevNotifs).
Proof.
  unfold mergeMapping. rewrite foldl_insert_union. f_equal.
  unfold batchMapping. by rewrite foldl_fmap.
Qed.

Lemma JsMap_set_fresh {V} k (v : V) (m : JsMap.t V) :
  k ∉ m.*1 → JsMap.set k v m = m ++ [(k, v)].
Proof.
  induction m as [|[k' v'] m IH]; csimpl; intros Hk; [done |].
  apply not_elem_of_cons in Hk as [Hne Hk].
  rewrite decide_False by done. by rewrite IH.
Qed.

Lemma setAll_fresh m l :
  NoDup (m.*1 ++ (id <$> l)) → setAll m l = m ++ ((λ c, (id c, c)) <$> l).
Proof.
  revert m. induction l as [|c l IH]; intros m Hnd; csimpl.
  - by rewrite app_nil_r.
  - assert (id c ∉ m.*1) as Hc.
    { apply NoDup_app in Hnd as (_ & Hnd & _). intros Hin.
      apply (Hnd _ Hin). left. }
    rewrite JsMap_set_fresh by done. rewrite IH.
    + by rewrite <- app_assoc.
    + rewrite fmap_app. csimpl. rewrite <- app_assoc. done.
Qed.

(** Seeding the map from a reconciled list puts its entries in the map in
    the order of the list. *)
Lemma seedMap_reconciled l :
  reconciled l → seedMap l = (λ n, (id (core n), core n)) <$> l.
Proof.
  intros Hl. rewrite seedMap_setAll, setAll_fresh.
  - csimpl. by rewrite <- list_fmap_compose.
  - csimpl. by rewrite <- list_fmap_compose.
Qed.

Lemma mergeNotifications_annotated prevNotifs newNotifs readIds sent n :
  n ∈ (mergeNotifications prevNotifs newNotifs readIds sent).1 →
  n = annotate readIds (core n).
Proof.
  rewrite mergeNotifications_out, sort_perm.
  intros Hn. apply list_elem_of_fmap in Hn as (c & -> & _). done.
Qed.

(** The map seeded from the list a merge returned denotes the mapping of
    that merge. *)
Lemma seedMap_of_merge prevNotifs newNotifs readIds sent :
  JsMap.denote (seedMap (mergeNotifications prevNotifs newNotifs readIds sent).1)
  = mergeMapping prevNotifs newNotifs.
Proof.
  rewrite seedMap_reconciled by apply mergeNotifications_reconciled.
  rewrite <- (mergeLoops_denote prevNotifs newNotifs readIds sent).
  unfold JsMap.denote. apply list_to_map_proper.
  - rewrite <- list_fmap_compose.
    apply (mergeNotifications_reconciled prevNotifs newNotifs readIds sent).
  - rewrite mergeNotifications_out, sort_perm.
    rewrite <- list_fmap_compose. unfold JsMap.values.
    pose proof (mergeLoops_keyed prevNotifs newNotifs readIds sent) as Hk.
    induction Hk as [|[k c] m Hkc Hm IH]; csimpl; [done |].
    simpl in Hkc. by rewrite IH, Hkc.
Qed.

Lemma mergeLoops_of_merge prevNotifs batch1 batch2 readIds readIds' sent sent' :
  JsMap.denote
    (mergeLoops (mergeNotifications prevNotifs batch1 readIds sent).1
                batch2 readIds' sent').1
  = batchMapping batch2 ∪ (batchMapping batch1 ∪ batchMapping (core <$> prevNotifs)).
Proof.
  unfold mergeLoops. rewrite mergeStep_map. cbn [fst].
  rewrite setAll_denote, seedMap_of_merge, foldl_insert_union.
  by rewrite mergeMapping_union.
Qed.

Lemma seedMap_denote prevNotifs :
  JsMap.denote (seedMap prevNotifs) = batchMapping (core <$> prevNotifs).
Proof. rewrite seedMap_setAll. apply (setAll_denote JsMap.empty). Qed.

Lemma mergeNotifications_perm prevNotifs newNotifs readIds sent :
  (mergeNotifications prevNotifs newNotifs readIds sent).1
  ≡ₚ annotate readIds <$>
       (map_to_list
          (JsMap.denote (mergeLoops prevNotifs newNotifs readIds sent).1)).*2.
Proof.
  rewrite mergeNotifications_out, sort_perm.
  by rewrite JsMap_values_denote by apply mergeLoops_NoDup.
Qed.

(** An entry of a reconciled list that the batch does not touch is in the
    mapping of the merge as it was. *)
Lemma mergeMapping_untouched prevNotifs newNotifs n :
  reconciled prevNotifs → n ∈ prevNotifs → id (core n) ∉ id <$> newNotifs →
  mergeMapping prevNotifs newNotifs !! id (core n) = Some (core n).
Proof.
  intros Hrec Hn Hfresh. rewrite mergeMapping_union.
  rewrite lookup_union_r.
  - rewrite <- seedMap_denote, seedMap_reconciled by done.
    unfold JsMap.denote. apply elem_of_list_to_map_1.
    + by rewrite <- list_fmap_compose.
    + by apply (list_elem_of_fmap_2 (λ n, (id (core n), core n))).
  - destruct (batchMapping newNotifs !! id (core n)) eqn:E; [|done].
    exfalso. apply Hfresh, batchMapping_dom. by eexists.
Qed.

(** C4.  Two batches with disjoint identities, merged in either order into
    the same list under the same read set, leave the same identity-keyed
    mapping and lists with the same entries; and a merge pass keeps every
    entry of a reconciled list whose identity the batch does not carry, with
    its fields as they were and its [isRead] flag recomputed. *)
Theorem merge_disjoint_batches_commute (w : Session) (batchA batchB : list Candidate)
    (readIds : gset string) :
  ((∀ k, k ∈ id <$> batchA → k ∉ id <$> batchB) →
   JsMap.denote (notifsMapOf (mergePass w (batchA, readIds)) (batchB, readIds))
   = JsMap.denote (notifsMapOf (mergePass w (batchB, readIds)) (batchA, readIds))
   ∧ allNotifications (run w [(batchA, readIds); (batchB, readIds)])
     ≡ₚ allNotifications (run w [(batchB, readIds); (batchA, readIds)]))
  ∧ (∀ n, reconciled (allNotifications w) → n ∈ allNotifications w →
          id (core n) ∉ id <$> batchA →
          annotate readIds (core n) ∈ allNotifications (mergePass w (batchA, readIds))).
Proof.
  split; [intros Hdisj | ].
  2: { intros n Hrec Hn Hfresh. unfold mergePass. cbn [allNotifications fst snd].
       rewrite mergeNotifications_perm, mergeLoops_denote.
       apply list_elem_of_fmap_2, list_elem_of_fmap.
       exists (id (core n), core n). split; [done |].
       apply elem_of_map_to_list. by apply mergeMapping_untouched. }
  assert (∀ s s' s1 s1',
    JsMap.denote (mergeLoops (mergeNotifications (allNotifications w) batchA readIds s).1
                    batchB readIds s').1
    = JsMap.denote (mergeLoops (mergeNotifications (allNotifications w) batchB readIds s1).1
                      batchA readIds s1').1) as Hmap.
  { intros. rewrite !mergeLoops_of_merge, !(assoc_L (∪)). f_equal.
    apply map_union_comm. symmetry. by apply batchMapping_disjoint. }
  split.
  - apply Hmap.
  - unfold run. cbn [foldl]. unfold mergePass. cbn [allNotifications sentEmails fst snd].
    etrans; [apply mergeNotifications_perm |].
    symmetry. etrans; [apply mergeNotifications_perm |].
    erewrite Hmap. reflexivity.
Qed.

(** *** Merging the same batch again *)

Lemma mergeStep_no_delivery readIds sent m out l :
  (∀ c, c ∈ l → id c ∈ m.*1) →
  (foldl (mergeStep readIds sent) (m, out) l).2 = out.
Proof.
  revert m. induction l as [|c l IH]; intros m Hin; simpl; [done |].
  assert (JsMap.has (id c) m = true) as Hhas.
  { apply JsMap_has_true, Hin. left. }
  unfold mergeStep at 2. cbn [fst snd]. rewrite Hhas. cbn [negb andb].
  apply IH. intros c' Hc'. rewrite JsMap_set_keys, decide_True.
  - apply Hin. by right.
  - apply Hin. left.
Qed.

Lemma batchMapping_absorb (l : list Candidate) (m : gmap string Candidate) :
  batchMapping l ∪ (batchMapping l ∪ m) = batchMapping l ∪ m.
Proof. by rewrite (assoc_L (∪)), (idemp_L (∪)). Qed.

(** Merging a batch into the list its own merge returned changes nothing
    and asks for no mail. *)
Lemma mergeNotifications_again prevNotifs newNotifs readIds sent sent' :
  let out := (mergeNotifications prevNotifs newNotifs readIds sent).1 in
  mergeNotifications out newNotifs readIds sent' = (out, []).
Proof.
  intros out.
  assert (reconciled out) as Hrec by apply mergeNotifications_reconciled.
  assert (∀ c, c ∈ newNotifs → id c ∈ (seedMap out).*1) as Hin.
  { intros c Hc. rewrite seedMap_reconciled by done.
    rewrite <- list_fmap_compose. change (id c ∈ identities out).
    subst out. rewrite mergeNotifications_identities, mergeLoops_map.
    by apply setAll_keys_new. }
  assert ((mergeLoops out newNotifs readIds sent').1 = seedMap out) as Hmap.
  { unfold mergeLoops. rewrite mergeStep_map. cbn [fst].
    apply JsMap_ext.
    - apply setAll_NoDup. rewrite seedMap_setAll. apply setAll_NoDup. constructor.
    - by apply setAll_keys_same.
    - rewrite setAll_denote, foldl_insert_union. subst out.
      rewrite seedMap_of_merge, mergeMapping_union. apply batchMapping_absorb. }
  unfold mergeNotifications. rewrite Hmap. f_equal.
  - rewrite seedMap_reconciled by done. unfold JsMap.values.
    rewrite <- !list_fmap_compose.
    assert ((annotate readIds ∘ snd ∘ (λ n, (id (core n), core n))) <$> out = out) as ->.
    { rewrite <- (list_fmap_id out) at 2. apply list_fmap_ext.
      intros i n Hn. simpl. symmetry.
      apply (mergeNotifications_annotated prevNotifs newNotifs readIds sent).
      by apply list_elem_of_lookup_2 in Hn. }
    apply sort_of_sorted. apply sort_sorted.
  - unfold mergeLoops. by apply mergeStep_no_delivery.
Qed.

(** C5.  Merging the same batch again under the same read set returns the
    list as it is, so no [isRead] flag changes, and makes no mail request:
    the session is as the first pass left it. *)
Theorem remerge_idempotent (w : Session) (batch : list Candidate) (readIds : gset string) :
  let w1 := mergePass w (batch, readIds) in
  let w2 := mergePass w1 (batch, readIds) in
  allNotifications w2 = allNotifications w1
  ∧ isRead <$> allNotifications w2 = isRead <$> allNotifications w1
  ∧ mail w2 = mail w1
  ∧ sentEmails w2 = sentEmails w1.
Proof.
  intros w1 w2. subst w2 w1. unfold mergePass.
  cbn [allNotifications mail sentEmails fst snd].
  rewrite !mergeNotifications_again. cbn [fst snd foldl].
  by rewrite app_nil_r.
Qed.

(** *** Identities are never removed *)

Lemma seedMap_keys prevNotifs k :
  k ∈ (seedMap prevNotifs).*1 ↔ k ∈ identities prevNotifs.
Proof.
  rewrite seedMap_setAll. unfold identities. split.
  - intros Hk. apply setAll_keys_inv in Hk as [Hk|Hk]; [by apply elem_of_nil in Hk |].
    by rewrite <- list_fmap_compose in Hk.
  - intros Hk. apply list_elem_of_fmap in Hk as (n & -> & Hn).
    apply (setAll_keys_new JsMap.empty (core <$> prevNotifs) (core n)).
    by apply list_elem_of_fmap_2.
Qed.

Lemma mergeNotifications_keeps prevNotifs newNotifs readIds sent k :
  k ∈ identities prevNotifs →
  k ∈ identities (mergeNotifications prevNotifs newNotifs readIds sent).1.
Proof.
  intros Hk. rewrite mergeNotifications_identities.
  unfold mergeLoops. rewrite mergeStep_map. cbn [fst].
  by apply setAll_keys_incl, seedMap_keys.
Qed.

Lemma mergeNotifications_adds prevNotifs newNotifs readIds sent c :
  c ∈ newNotifs →
  id c ∈ identities (mergeNotifications prevNotifs newNotifs readIds sent).1.
Proof.
  intros Hc. rewrite mergeNotifications_identities, mergeLoops_map.
  by apply setAll_keys_new.
Qed.

Lemma run_keeps (w : Session) passes k :
  k ∈ identities (allNotifications w) →
  k ∈ identities (allNotifications (run w passes)).
Proof.
  unfold run. revert w. induction passes as [|p passes IH]; intros w Hk; simpl; [done |].
  apply IH. by apply mergeNotifications_keeps.
Qed.

(** C9.  The identities of the reconciled list only grow: whatever passes
    follow, an identity that is in the list stays in it; and after a pass
    under a read set that does not hold the identity, its entry is unread and
    the unread counter is positive, whether or not the batch still carries
    it. *)
Theorem identities_only_grow (w : Session) (k : string) :
  k ∈ identities (allNotifications w) →
  (∀ passes, k ∈ identities (allNotifications (run w passes)))
  ∧ (∀ p, k ∉ p.2 →
       ∃ n, n ∈ allNotifications (mergePass w p)
            ∧ id (core n) = k ∧ isRead n = false
            ∧ 0 < unreadCount (allNotifications (mergePass w p))).
Proof.
  intros Hk. split; [intros passes; by apply run_keeps |].
  intros p Hunread.
  pose proof (mergeNotifications_keeps _ p.1 p.2 (sentEmails w) _ Hk) as Hin.
  apply list_elem_of_fmap in Hin as (n & -> & Hn).
  exists n. unfold mergePass. cbn [allNotifications].
  assert (isRead n = false) as Hflag.
  { rewrite (mergeNotifications_annotated _ _ _ _ _ Hn). simpl.
    by apply bool_decide_eq_false_2. }
  split_and!; [done.. |].
  unfold unreadCount.
  assert (n ∈ filter (λ n, isRead n = false)
                (mergeNotifications (allNotifications w) p.1 p.2 (sentEmails w)).1) as Hf.
  { by apply list_elem_of_filter. }
  destruct (filter _ _); [by apply elem_of_nil in Hf | simpl; lia].
Qed.

(** *** Mail requests *)

Lemma mergeStep_eq readIds sent st c :
  mergeStep readIds sent st c
  = (JsMap.set (id c) c st.1,
     st.2 ++ if JsMap.has (id c) st.1 then [] else deliveryFor readIds sent c).
Proof.
  unfold mergeStep, deliveryFor. destruct (JsMap.has (id c) st.1); simpl.
  - by rewrite app_nil_r.
  - destruct (bool_decide (id c ∈ readIds)); simpl; [by rewrite app_nil_r |].
    destruct (sendEmailNotification _ _); [done | by rewrite app_nil_r].
Qed.

Lemma deliveries_of_app i l1 l2 :
  deliveries_of i (l1 ++ l2) = deliveries_of i l1 ++ deliveries_of i l2.
Proof. apply filter_app. Qed.

Lemma deliveryFor_label readIds sent c d :
  d ∈ deliveryFor readIds sent c → d.1 = id c.
Proof.
  unfold deliveryFor. destruct (negb _); [| by intros ?%elem_of_nil].
  destruct (sendEmailNotification _ _); [| by intros ?%elem_of_nil].
  by intros ->%list_elem_of_singleton.
Qed.

Lemma deliveries_of_deliveryFor i readIds sent c :
  deliveries_of i (deliveryFor readIds sent c)
  = if decide (id c = i) then deliveryFor readIds sent c else [].
Proof.
  unfold deliveries_of, deliveryFor. destruct (negb _); [| by case_decide].
  destruct (sendEmailNotification _ _); [| by case_decide].
  rewrite filter_cons, filter_nil. simpl. by repeat case_decide.
Qed.

Lemma deliveryFor_length readIds sent c : length (deliveryFor readIds sent c) ≤ 1.
Proof.
  unfold deliveryFor. destruct (negb _); [| simpl; lia].
  destruct (sendEmailNotification _ _); simpl; lia.
Qed.

(** The requests one loop makes for an identity: none when the identity is
    in the map already, otherwise the one of its first candidate. *)
Lemma mergeStep_deliveries i readIds sent l m out :
  deliveries_of i (foldl (mergeStep readIds sent) (m, out) l).2
  = deliveries_of i out ++
    if decide (i ∈ m.*1) then []
    else from_option (deliveryFor readIds sent) [] (firstFor i l).
Proof.
  revert m out. induction l as [|c l IH]; intros m out.
  - simpl. case_decide; by rewrite app_nil_r.
  - cbn [foldl]. rewrite mergeStep_eq. cbn [fst snd]. rewrite IH.
    rewrite deliveries_of_app, JsMap_set_keys.
    unfold firstFor. rewrite filter_cons.
    destruct (decide (id c = i)) as [<-|Hne].
    + destruct (decide (id c ∈ m.*1)) as [Hin|Hnin].
      * rewrite decide_True by done.
        assert (JsMap.has (id c) m = true) as -> by by apply JsMap_has_true.
        by rewrite !app_nil_r.
      * assert (JsMap.has (id c) m = false) as ->.
        { apply not_true_is_false. by rewrite JsMap_has_true. }
        rewrite decide_True by (apply elem_of_app; right; by apply list_elem_of_singleton).
        rewrite deliveries_of_deliveryFor, decide_True by done.
        by rewrite app_nil_r.
    + assert (deliveries_of i
                (if JsMap.has (id c) m then [] else deliveryFor readIds sent c) = []) as ->.
      { destruct (JsMap.has (id c) m); [done |].
        by rewrite deliveries_of_deliveryFor, decide_False. }
      rewrite app_nil_r. f_equal.
      destruct (decide (id c ∈ m.*1)) as [Hc|Hc]; [done |].
      destruct (decide (i ∈ m.*1)) as [Hi|Hi].
      * rewrite decide_True; [done | apply elem_of_app; by left].
      * rewrite decide_False; [done |].
        rewrite elem_of_app, list_elem_of_singleton. intros [?|?]; congruence.
Qed.

Lemma mergeStep_labels readIds sent l m out d :
  d ∈ (foldl (mergeStep readIds sent) (m, out) l).2 → d ∈ out ∨ d.1 ∈ id <$> l.
Proof.
  revert m out. induction l as [|c l IH]; intros m out Hd; [by left |].
  cbn [foldl] in Hd. rewrite mergeStep_eq in Hd. cbn [fst snd] in Hd.
  apply IH in Hd as [Hd|Hd]; csimpl.
  - apply elem_of_app in Hd as [Hd|Hd]; [by left |].
    right. destruct (JsMap.has (id c) m); [by apply elem_of_nil in Hd |].
    apply deliveryFor_label in Hd as ->. left.
  - right. by right.
Qed.

(** The requests one pass makes for an identity. *)
Lemma mergePass_deliveries (w : Session) p i :
  deliveries_of i (mail (mergePass w p))
  = deliveries_of i (mail w) ++
    if decide (i ∈ identities (allNotifications w)) then []
    else from_option (deliveryFor p.2 (sentEmails w)) [] (firstFor i p.1).
Proof.
  unfold mergePass. cbn [mail]. rewrite deliveries_of_app. f_equal.
  unfold mergeNotifications. cbn [snd]. unfold mergeLoops.
  rewrite mergeStep_deliveries. cbn [deliveries_of filter app].
  destruct (decide (i ∈ (seedMap (allNotifications w)).*1)) as [Hi|Hi];
    rewrite seedMap_keys in Hi.
  - by rewrite decide_True.
  - by rewrite decide_False.
Qed.

(** What is recorded as sent, and every request made, belongs to an
    identity of the list. *)
Definition accounted (w : Session) : Prop :=
  (∀ k, k ∈ sentEmails w → k ∈ identities (allNotifications w))
  ∧ (∀ d, d ∈ mail w → d.1 ∈ identities (allNotifications w)).

Lemma initial_accounted : accounted initial.
Proof. split; intros x Hx; [by apply not_elem_of_empty in Hx | by apply elem_of_nil in Hx]. Qed.

Lemma resume_sent sent ds k :
  k ∈ foldl sendEmailNotification_resume sent ds → k ∈ sent ∨ k ∈ ds.*1.
Proof.
  revert sent. induction ds as [|d ds IH]; intros sent Hk; simpl in Hk; [by left |].
  apply IH in Hk as [Hk|Hk]; csimpl.
  - unfold sendEmailNotification_resume in Hk.
    destruct (addDocument_resolves d.2); [| by left].
    apply elem_of_union in Hk as [Hk|Hk]; [| by left].
    apply elem_of_singleton in Hk as ->. right. left.
  - right. by right.
Qed.

Lemma mergePass_accounted (w : Session) p : accounted w → accounted (mergePass w p).
Proof.
  intros [Hsent Hmail].
  assert (∀ d, d ∈ (mergeNotifications (allNotifications w) p.1 p.2 (sentEmails w)).2 →
               d.1 ∈ identities (mergeNotifications (allNotifications w) p.1 p.2
                                   (sentEmails w)).1) as Hnew.
  { intros d Hd. unfold mergeNotifications in Hd. cbn [snd] in Hd.
    apply mergeStep_labels in Hd as [Hd|Hd]; [by apply elem_of_nil in Hd |].
    apply list_elem_of_fmap in Hd as (c & -> & Hc). by apply mergeNotifications_adds. }
  split; unfold mergePass; cbn [allNotifications sentEmails mail].
  - intros k Hk. apply resume_sent in Hk as [Hk|Hk].
    + by apply mergeNotifications_keeps, Hsent.
    + apply list_elem_of_fmap in Hk as (d & -> & Hd). by apply Hnew.
  - intros d Hd. apply elem_of_app in Hd as [Hd|Hd].
    + by apply mergeNotifications_keeps, Hmail.
    + by apply Hnew.
Qed.

Lemma run_accounted (w : Session) passes : accounted w → accounted (run w passes).
Proof.
  unfold run. revert w. induction passes as [|p passes IH]; intros w Hw; simpl; [done |].
  by apply IH, mergePass_accounted.
Qed.

Lemma accounted_fresh (w : Session) i :
  accounted w → i ∉ identities (allNotifications w) →
  deliveries_of i (mail w) = [] ∧ i ∉ sentEmails w.
Proof.
  intros [Hsent Hmail] Hi. split; [| by intros ?%Hsent].
  unfold deliveries_of. apply elem_of_nil_inv. intros d Hd.
  apply list_elem_of_filter in Hd as [<- Hd]. by apply Hmail in Hd.
Qed.

(** Once an identity is in the list, no later pass asks for mail for it. *)
Lemma run_no_more (w : Session) passes i :
  i ∈ identities (allNotifications w) →
  deliveries_of i (mail (run w passes)) = deliveries_of i (mail w).
Proof.
  unfold run. revert w. induction passes as [|p passes IH]; intros w Hi; simpl; [done |].
  rewrite IH by by apply mergeNotifications_keeps.
  rewrite mergePass_deliveries, decide_True by done. by rewrite app_nil_r.
Qed.

Lemma run_at_most_once (w : Session) passes i :
  accounted w → length (deliveries_of i (mail w)) ≤ 1 →
  length (deliveries_of i (mail (run w passes))) ≤ 1.
Proof.
  unfold run. revert w.
  induction passes as [|p passes IH]; intros w Hw Hlen; simpl; [done |].
  apply IH; [by apply mergePass_accounted |].
  rewrite mergePass_deliveries.
  destruct (decide (i ∈ identities (allNotifications w))) as [Hi|Hi].
  - by rewrite app_nil_r.
  - destruct (accounted_fresh w i Hw Hi) as [-> _]. simpl.
    destruct (firstFor i p.1); simpl; [apply deliveryFor_length | lia].
Qed.

Lemma firstFor_Some i l c : firstFor i l = Some c → c ∈ l ∧ id c = i.
Proof.
  unfold firstFor. intros Hc.
  assert (c ∈ filter (λ c, id c = i) l) as Hin.
  { destruct (filter _ l) as [|c' l']; simplify_eq/=. left. }
  apply list_elem_of_filter in Hin. tauto.
Qed.

Lemma sendEmailNotification_None sent (n : Notification) :
  truthy (recipientEmail (core n)) = false → sendEmailNotification sent n = None.
Proof.
  unfold sendEmailNotification. intros ->. simpl. by rewrite orb_true_r.
Qed.

Lemma sendEmailNotification_Some sent (n : Notification) :
  firestore = true → truthy (recipientEmail (core n)) = true →
  id (core n) ∉ sent →
  sendEmailNotification sent n = Some (mailData n).
Proof.
  unfold sendEmailNotification. intros -> -> Hn. simpl.
  by rewrite bool_decide_eq_false_2.
Qed.

Lemma sendEmailNotification_Some_inv sent (n : Notification) d :
  sendEmailNotification sent n = Some d →
  firestore = true ∧ truthy (recipientEmail (core n)) = true
  ∧ (id (core n) ∉ sent) ∧ d = mailData n.
Proof.
  unfold sendEmailNotification.
  destruct firestore; simpl; [| done].
  destruct (truthy (recipientEmail (core n))); simpl; [| done].
  case_bool_decide; [done |]. intros [= <-]. done.
Qed.

Lemma deliveryFor_inv readIds sent c d :
  d ∈ deliveryFor readIds sent c →
  (id c ∉ readIds) ∧ firestore = true ∧ truthy (recipientEmail c) = true
  ∧ d = (id c, mailData {| core := c; isRead := false |}).
Proof.
  unfold deliveryFor. case_bool_decide as Hread; simpl; [by intros ?%elem_of_nil |].
  destruct (sendEmailNotification _ _) as [md|] eqn:Hsend; [| by intros ?%elem_of_nil].
  intros ->%list_elem_of_singleton.
  apply sendEmailNotification_Some_inv in Hsend as (? & ? & _ & ->). done.
Qed.

(** Every request of a loop comes from a candidate of the batch that
    carries a recipient email. *)
Lemma mergeStep_origin readIds sent l m out d :
  d ∈ (foldl (mergeStep readIds sent) (m, out) l).2 →
  d ∈ out
  ∨ ∃ c, c ∈ l ∧ truthy (recipientEmail c) = true
         ∧ d = (id c, mailData {| core := c; isRead := false |}).
Proof.
  revert m out. induction l as [|c l IH]; intros m out Hd; [by left |].
  cbn [foldl] in Hd. rewrite mergeStep_eq in Hd. cbn [fst snd] in Hd.
  apply IH in Hd as [Hd|(c' & Hc' & Hmail & ->)].
  - apply elem_of_app in Hd as [Hd|Hd]; [by left |].
    right. destruct (JsMap.has (id c) m); [by apply elem_of_nil in Hd |].
    apply deliveryFor_inv in Hd as (_ & _ & Hmail & ->).
    exists c. split_and!; [left | done..].
  - right. exists c'. split_and!; [by right | done..].
Qed.

Lemma run_snoc (w : Session) passes p : run w (passes ++ [p]) = mergePass (run w passes) p.
Proof. unfold run. by rewrite foldl_app. Qed.

Lemma run_app (w : Session) passes passes' :
  run w (passes ++ passes') = run (run w passes) passes'.
Proof. unfold run. by rewrite foldl_app. Qed.

(** C2, as amended.  From the start of a session, take the pass in which
    an identity is in the batch, not yet in the list and not in the read set.
    If the store handle is there and the identity's first candidate of that
    batch carries a recipient email, then no mail request was made for the
    identity before, that pass makes exactly one, for that candidate, and
    whatever passes follow make no other.  In every session, with or without
    these conditions, an identity gets at most one request; and a pass that
    makes a request for an identity is one in which the identity is new to
    the list, not in the read set, and its first candidate carries a
    recipient email. *)
Theorem delivery_once_per_session
    (before after : list (list Candidate * gset string)) (p : list Candidate * gset string)
    (i : string) (c : Candidate) :
  firstFor i p.1 = Some c →
  i ∉ identities (allNotifications (run initial before)) →
  i ∉ p.2 →
  firestore = true →
  truthy (recipientEmail c) = true →
  deliveries_of i (mail (run initial before)) = []
  ∧ deliveries_of i (mail (run initial (before ++ [p])))
    = [(i, mailData {| core := c; isRead := false |})]
  ∧ deliveries_of i (mail (run initial (before ++ p :: after)))
    = [(i, mailData {| core := c; isRead := false |})]
  ∧ (∀ passes j, length (deliveries_of j (mail (run initial passes))) ≤ 1)
  ∧ (∀ (w : Session) q j,
       deliveries_of j (mail (mergePass w q)) ≠ deliveries_of j (mail w) →
       ∃ c', firstFor j q.1 = Some c'
             ∧ (j ∉ identities (allNotifications w)) ∧ (j ∉ q.2)
             ∧ firestore = true ∧ truthy (recipientEmail c') = true).
Proof.
  intros Hfirst Hnew Hunread Hstore Hemail.
  pose proof (run_accounted initial before initial_accounted) as Hacc.
  destruct (accounted_fresh _ i Hacc Hnew) as [Hnone Hunsent].
  destruct (firstFor_Some _ _ _ Hfirst) as [Hc Hid].
  assert (deliveries_of i (mail (mergePass (run initial before) p))
          = [(i, mailData {| core := c; isRead := false |})]) as Hpass.
  { rewrite mergePass_deliveries, Hnone, decide_False, Hfirst by done. simpl.
    unfold deliveryFor. rewrite Hid, bool_decide_eq_false_2 by done. simpl.
    rewrite sendEmailNotification_Some; [done.. |]. simpl. by rewrite Hid. }
  split_and!.
  - done.
  - by rewrite run_snoc.
  - rewrite (run_app _ before (p :: after)). change (p :: after) with ([p] ++ after).
    rewrite (run_app _ [p] after), run_no_more; [exact Hpass |].
    rewrite <- Hid. by apply mergeNotifications_adds.
  - intros passes j. apply run_at_most_once; [apply initial_accounted | simpl; lia].
  - intros w q j Hmade. rewrite mergePass_deliveries in Hmade.
    destruct (decide (j ∈ identities (allNotifications w))) as [Hj|Hj];
      [by rewrite app_nil_r in Hmade |].
    destruct (firstFor j q.1) as [c'|] eqn:Hc'; [| by rewrite app_nil_r in Hmade].
    simpl in Hmade. destruct (firstFor_Some _ _ _ Hc') as [_ Hid'].
    destruct (deliveryFor q.2 (sentEmails w) c') as [|d ds] eqn:Hd;
      [by rewrite app_nil_r in Hmade |].
    assert (d ∈ deliveryFor q.2 (sentEmails w) c') as Hin by (rewrite Hd; left).
    apply deliveryFor_inv in Hin as (Hread & Hfs & Hmail & _).
    exists c'. subst j. by split_and!.
Qed.

Lemma resume_mono sent ds k :
  k ∈ sent → k ∈ foldl sendEmailNotification_resume sent ds.
Proof.
  revert sent. induction ds as [|d ds IH]; intros sent Hk; simpl; [done |].
  apply IH. unfold sendEmailNotification_resume.
  destruct (addDocument_resolves d.2); [| done]. apply elem_of_union. by right.
Qed.

(** C10, as amended.  [sendEmailNotification] returns without a request for
    a notification that carries no recipient email, so every request a merge
    makes comes from a candidate of the batch that carries one.  If the
    candidates of a batch for an identity carry none, the pass makes no
    request for the identity, new and unread or not, and does not record it
    as sent.  The identity is in the list from then on, and the merge asks
    for mail only for identities that are not: whatever passes follow, with
    or without an email on their candidates, make no request for it; in a
    session in which the identity was not in the list before, it gets no
    request at all.  ([sendEmailNotification] itself, were it called on a
    later notification of the identity with an email, would make the
    request; the merge does not call it.) *)
Theorem no_recipient_no_delivery (w : Session) (batch : list Candidate)
    (readIds : gset string) :
  let w' := mergePass w (batch, readIds) in
  let made := (mergeNotifications (allNotifications w) batch readIds (sentEmails w)).2 in
  (∀ n sent, truthy (recipientEmail (core n)) = false →
     sendEmailNotification sent n = None)
  ∧ (∀ d, d ∈ made →
       ∃ c, c ∈ batch ∧ truthy (recipientEmail c) = true
            ∧ d = (id c, mailData {| core := c; isRead := false |}))
  ∧ (∀ i, (∀ c, c ∈ batch → id c = i → truthy (recipientEmail c) = false) →
       deliveries_of i (mail w') = deliveries_of i (mail w)
       ∧ (i ∈ sentEmails w' ↔ i ∈ sentEmails w)
       ∧ (∀ n, id (core n) = i → truthy (recipientEmail (core n)) = true →
               firestore = true → i ∉ sentEmails w →
               sendEmailNotification (sentEmails w') n = Some (mailData n))
       ∧ (i ∈ id <$> batch →
            i ∈ identities (allNotifications w')
            ∧ (∀ later,
                 deliveries_of i (mail (run w' later)) = deliveries_of i (mail w))
            ∧ (∀ before later,
                 w = run initial before →
                 i ∉ identities (allNotifications w) →
                 deliveries_of i
                   (mail (run initial (before ++ (batch, readIds) :: later))) = []))).
Proof.
  intros w' made.
  assert (∀ d, d ∈ made →
            ∃ c, c ∈ batch ∧ truthy (recipientEmail c) = true
                 ∧ d = (id c, mailData {| core := c; isRead := false |})) as Horigin.
  { intros d Hd. subst made. unfold mergeNotifications, mergeLoops in Hd. cbn [snd] in Hd.
    apply mergeStep_origin in Hd as [Hd|Hd]; [by apply elem_of_nil in Hd | done]. }
  split_and!.
  - intros n sent. apply sendEmailNotification_None.
  - exact Horigin.
  - intros i Hnone.
    assert (deliveries_of i made = []) as Hds.
    { apply elem_of_nil_inv. intros d Hd.
      apply list_elem_of_filter in Hd as [Hi Hd].
      apply Horigin in Hd as (c & Hc & Hmail & ->). simpl in Hi.
      rewrite (Hnone c Hc Hi) in Hmail. discriminate. }
    assert (i ∈ sentEmails w' ↔ i ∈ sentEmails w) as Hsent.
    { subst w'. unfold mergePass. cbn [sentEmails fst snd]. split.
      - intros Hi. apply resume_sent in Hi as [Hi|Hi]; [done |].
        apply list_elem_of_fmap in Hi as (d & Hd & Hin).
        assert (d ∈ deliveries_of i made) as Hd' by by apply list_elem_of_filter.
        rewrite Hds in Hd'. by apply elem_of_nil in Hd'.
      - apply resume_mono. }
    assert (deliveries_of i (mail w') = deliveries_of i (mail w)) as Hpass.
    { subst w'. unfold mergePass. cbn [mail fst snd]. fold made.
      by rewrite deliveries_of_app, Hds, app_nil_r. }
    split_and!.
    + exact Hpass.
    + exact Hsent.
    + intros n Hid Hemail Hstore Hunsent.
      apply sendEmailNotification_Some; [done.. |]. rewrite Hid. by rewrite Hsent.
    + intros Hin.
      assert (i ∈ identities (allNotifications w')) as Hlist.
      { apply list_elem_of_fmap in Hin as (c & -> & Hc).
        subst w'. unfold mergePass. cbn [allNotifications fst snd].
        by apply mergeNotifications_adds. }
      assert (∀ later,
                deliveries_of i (mail (run w' later)) = deliveries_of i (mail w))
        as Hlater.
      { intros later. by rewrite run_no_more. }
      split_and!; [done.. |].
      intros before later Hw Hfresh.
      change (before ++ (batch, readIds) :: later)
        with (before ++ [(batch, readIds)] ++ later).
      rewrite run_app, <- Hw. unfold run at 1. cbn [app foldl]. fold (run w' later).
      rewrite Hlater. apply accounted_fresh; [| done].
      rewrite Hw. apply run_accounted, initial_accounted.
Qed.

(** *** Marking everything read *)

Lemma arrayUnion_set (stored ids : list string) :
  (list_to_set (arrayUnion stored ids) : gset string)
  = list_to_set stored ∪ list_to_set ids.
Proof.
  unfold arrayUnion. revert stored.
  induction ids as [|i ids IH]; intros stored; simpl.
  - by rewrite (right_id_L ∅ (∪)).
  - rewrite IH. case_bool_decide as Hi.
    + apply (elem_of_list_to_set (C := gset string)) in Hi. set_solver.
    + rewrite list_to_set_app_L. simpl. set_solver.
Qed.

(** C8, as amended.  [handleMarkAsRead] takes the identities of the unread
    entries of the list.  With a signed-in user, the store handle and at
    least one unread entry it makes exactly one write, on the user's
    document, which unions those identities into the stored read
    identities; with no unread entry, no user or no handle it makes no
    write. *)
Theorem handleMarkAsRead_writes (user : option string) (notifs : list Notification) :
  let unreadIds := (λ n, id (core n)) <$> filter (λ n, isRead n = false) notifs in
  (∀ uid, user = Some uid → firestore = true → unreadIds ≠ [] →
     handleMarkAsRead user notifs
     = [ {| update_path := ["users"; uid];
            readNotificationIds_arrayUnion := unreadIds |} ])
  ∧ (unreadIds = [] → handleMarkAsRead user notifs = [])
  ∧ (user = None ∨ firestore = false → handleMarkAsRead user notifs = [])
  ∧ (∀ stored u, u ∈ handleMarkAsRead user notifs →
       (list_to_set (applyUpdate stored u) : gset string)
       = list_to_set stored ∪ list_to_set unreadIds).
Proof.
  intros unreadIds.
  assert (handleMarkAsRead user notifs
          = match user with
            | Some uid =>
                if firestore && negb (length unreadIds =? 0)
                then [ {| update_path := ["users"; uid];
                          readNotificationIds_arrayUnion := unreadIds |} ]
                else []
            | None => []
            end) as Heq.
  { unfold handleMarkAsRead. destruct user as [uid|]; [| done].
    destruct firestore; simpl; [| done].
    fold unreadIds.
    destruct (length notifs =? 0) eqn:Hlen.
    - apply Nat.eqb_eq in Hlen. destruct notifs; [| done]. by subst unreadIds.
    - by destruct (length unreadIds =? 0). }
  rewrite Heq. split_and!.
  - intros uid -> -> Hne. simpl. destruct unreadIds; [done | done].
  - intros ->. destruct user; [| done]. simpl. by rewrite andb_false_r.
  - intros [-> | ->]; [done |]. by destruct user.
  - intros stored u Hu.
    assert (readNotificationIds_arrayUnion u = unreadIds) as Hids.
    { destruct user; [| by apply elem_of_nil in Hu].
      destruct (_ && _); [| by apply elem_of_nil in Hu].
      by apply list_elem_of_singleton in Hu as ->. }
    unfold applyUpdate. by rewrite arrayUnion_set, Hids.
Qed.

(** *** The producers *)

(** A statement only appends to [newNotifications], and what it appends
    satisfies [Q]. *)
Definition appends (p : Producer) (Q : Candidate → Prop) : Prop :=
  ∀ s, ∃ l, newNotifications (p s) = newNotifications s ++ l ∧ Forall Q l.

Lemma appends_skip Q : appends skip Q.
Proof. intros s. exists []. by rewrite app_nil_r. Qed.

Lemma appends_push Q c : Q c → appends (push c) Q.
Proof. intros Hc s. exists [c]. split; [done | by constructor]. Qed.

Lemma appends_push_now Q c : (∀ now, Q (c now)) → appends (push_now c) Q.
Proof. intros Hc s. exists [c (Timestamp_now (readings s))]. split; [done | by constructor]. Qed.

Lemma appends_when Q b p : appends p Q → appends (when b p) Q.
Proof. intros Hp. destruct b; [done | apply appends_skip]. Qed.

Lemma appends_block Q ps : Forall (λ p, appends p Q) ps → appends (block ps) Q.
Proof.
  unfold block. induction 1 as [|p ps Hp Hps IH]; intros s; simpl.
  - exists []. by rewrite app_nil_r.
  - destruct (Hp s) as (l1 & Hl1 & HQ1). destruct (IH (p s)) as (l2 & Hl2 & HQ2).
    exists (l1 ++ l2). rewrite Hl2, Hl1, app_assoc. split; [done |].
    by apply Forall_app.
Qed.

Lemma block_cons p ps s : block (p :: ps) s = block ps (p s).
Proof. done. Qed.

Lemma block_app ps1 ps2 s : block (ps1 ++ ps2) s = block ps2 (block ps1 s).
Proof. unfold block. by rewrite foldl_app. Qed.

Ltac appends_steps :=
  repeat first
    [ apply appends_skip
    | apply appends_when
    | apply appends_block; repeat apply Forall_cons_2; try apply Forall_nil_2
    | apply appends_push_now; intros ?
    | apply appends_push
    | match goal with
      | |- appends (match ?x with _ => _ end) _ => destruct x
      end ].

(** A document of another request gives no candidate of identity
    [bid-<r>]. *)
Lemma processDoc_other uid userData doc r :
  request_id doc ≠ r →
  appends (processDoc uid userData doc) (λ c, id c ≠ "bid-" +:+ r).
Proof.
  intros Hne. unfold processDoc. appends_steps; simpl; intros Heq; simplify_eq/=.
Qed.

(** What a document gives besides the bid candidate is no bid candidate
    and has another identity. *)
Definition not_bid (r : string) (c : Candidate) : Prop :=
  type c ≠ new_bid ∧ id c ≠ "bid-" +:+ r.

(** The bid candidate of a document. *)
Definition bidCandidate (userData : option User.t)
    (doc : QueryDocumentSnapshot Timestamp) (now : Timestamp) : Candidate :=
  {| id := "bid-" +:+ request_id doc; type := new_bid;
     message := number (ProjectRequest.unreadBidsCount (doc_data doc))
                +:+ " new bid(s) on " +:+ dquote
                +:+ ProjectRequest.title (doc_data doc) +:+ dquote;
     link := "/requests/" +:+ request_id doc; timestamp := now;
     recipientEmail := userData ≫= User.email;
     recipientName := userData ≫= User.name |}.

(** A statement appends a first candidate, then candidates that satisfy
    [Q]. *)
Definition starts (p : Producer) (first : ProducerState → Candidate)
    (Q : Candidate → Prop) : Prop :=
  ∀ s, ∃ l, newNotifications (p s) = newNotifications s ++ first s :: l ∧ Forall Q l.

Lemma starts_push_now Q c :
  starts (push_now c) (λ s, c (Timestamp_now (readings s))) Q.
Proof. intros s. exists []. done. Qed.

Lemma starts_block Q p ps first :
  starts p first Q → appends (block ps) Q → starts (block (p :: ps)) first Q.
Proof.
  intros Hp Hps s. rewrite block_cons.
  destruct (Hp s) as (l1 & Hl1 & HQ1). destruct (Hps (p s)) as (l2 & Hl2 & HQ2).
  exists (l1 ++ l2). rewrite Hl2, Hl1, <- app_assoc. split; [done |].
  by apply Forall_app.
Qed.

Lemma processDoc_bid uid userData doc r :
  ProjectRequest.userId (doc_data doc) = uid →
  positive_count (ProjectRequest.unreadBidsCount (doc_data doc)) = true →
  starts (processDoc uid userData doc)
         (λ s, bidCandidate userData doc (Timestamp_now (readings s)))
         (not_bid r).
Proof.
  intros Huid Hbids. unfold processDoc.
  rewrite Huid, String.eqb_refl, Hbids. cbn [when].
  apply starts_block; [apply starts_block; [apply starts_push_now |] |].
  - appends_steps; split; simpl; intros Heq; simplify_eq/=.
  - appends_steps; split; simpl; intros Heq; simplify_eq/=.
Qed.

Lemma filter_none (P : Candidate → Prop) `{∀ c, Decision (P c)} l :
  Forall (λ c, ¬ P c) l → filter P l = [].
Proof.
  induction 1 as [|c l Hc Hl IH]; [done |].
  by rewrite filter_cons, decide_False.
Qed.

Lemma processProjectSnapshot_others uid userData docs r :
  (∀ d, d ∈ docs → request_id d ≠ r) →
  appends (processProjectSnapshot uid userData docs) (λ c, id c ≠ "bid-" +:+ r).
Proof.
  intros Hne. unfold processProjectSnapshot. apply appends_block.
  apply Forall_fmap, Forall_forall. intros d Hd. simpl.
  by apply processDoc_other, Hne.
Qed.

(** C7.  In a snapshot whose documents are distinct requests, the request
    [r1] owned by the viewing user with an unread-bids counter of 2 gives
    exactly one candidate of identity [bid-r1]: a [new_bid] whose message
    starts with [2 new bid(s)] and whose link is [/requests/r1].  Processed
    alone, the document gives exactly one [new_bid] candidate, that one. *)
Theorem bid_candidate_for_request (uid : string) (userData : option User.t)
    (docs : list (QueryDocumentSnapshot Timestamp))
    (doc : QueryDocumentSnapshot Timestamp) :
  NoDup (request_id <$> docs) →
  doc ∈ docs →
  request_id doc = "r1" →
  ProjectRequest.userId (doc_data doc) = uid →
  ProjectRequest.unreadBidsCount (doc_data doc) = Some 2%Z →
  let candidate now :=
    {| id := "bid-r1"; type := new_bid;
       message := "2 new bid(s)" +:+ " on " +:+ dquote
                  +:+ ProjectRequest.title (doc_data doc) +:+ dquote;
       link := "/requests/r1"; timestamp := now;
       recipientEmail := userData ≫= User.email;
       recipientName := userData ≫= User.name |} in
  (∃ now, filter (λ c, id c = "bid-r1")
                 (produce (processProjectSnapshot uid userData docs))
          = [candidate now])
  ∧ filter (λ c, type c = new_bid)
           (produce (processProjectSnapshot uid userData [doc]))
    = [candidate (Timestamp_now 0)].
Proof.
  intros Hnd Hdoc Hrid Huid Hbids candidate.
  assert (∀ now, bidCandidate userData doc now = candidate now) as Hbid.
  { intros now. unfold bidCandidate, candidate. by rewrite Hrid, Hbids. }
  assert (positive_count (ProjectRequest.unreadBidsCount (doc_data doc)) = true)
    as Hpos by by rewrite Hbids.
  pose proof (processDoc_bid uid userData doc "r1" Huid Hpos) as Hstarts.
  split.
  - apply list_elem_of_split in Hdoc as (docs1 & docs2 & ->).
    rewrite fmap_app, fmap_cons, Hrid in Hnd.
    apply NoDup_app in Hnd as (_ & Hnd1 & Hnd2).
    apply NoDup_cons in Hnd2 as [Hnd2 _].
    assert (∀ d, d ∈ docs1 → request_id d ≠ "r1") as Hne1.
    { intros d Hd Heq. apply (Hnd1 "r1"); [| left].
      rewrite <- Heq. by apply list_elem_of_fmap_2. }
    assert (∀ d, d ∈ docs2 → request_id d ≠ "r1") as Hne2.
    { intros d Hd Heq. apply Hnd2. rewrite <- Heq. by apply list_elem_of_fmap_2. }
    unfold produce, processProjectSnapshot.
    rewrite fmap_app, fmap_cons, block_app, block_cons.
    set (s0 := {| newNotifications := []; readings := 0 |}).
    destruct (processProjectSnapshot_others uid userData docs1 "r1" Hne1 s0)
      as (l1 & Hl1 & HQ1).
    fold (processProjectSnapshot uid userData docs1).
    set (s1 := processProjectSnapshot uid userData docs1 s0) in *.
    destruct (Hstarts s1) as (l & Hl & HQ).
    destruct (processProjectSnapshot_others uid userData docs2 "r1" Hne2
                (processDoc uid userData doc s1)) as (l2 & Hl2 & HQ2).
    exists (Timestamp_now (readings s1)).
    unfold processProjectSnapshot in Hl2. rewrite Hl2, Hl, Hl1.
    rewrite !filter_app, filter_cons, Hbid. simpl.
    rewrite (filter_none _ l1) by done.
    rewrite (filter_none _ l2) by done.
    rewrite (filter_none _ l); [done |].
    eapply Forall_impl; [exact HQ |]. by intros c [_ Hc].
  - unfold produce, processProjectSnapshot.
    change (processDoc uid userData <$> [doc]) with [processDoc uid userData doc].
    rewrite block_cons.
    destruct (Hstarts {| newNotifications := []; readings := 0 |}) as (l & Hl & HQ).
    unfold block at 1. cbn [foldl]. rewrite Hl. simpl. rewrite Hbid.
    rewrite filter_cons. simpl. rewrite (filter_none _ l); [done |].
    eapply Forall_impl; [exact HQ |]. by intros c [Hc _].
Qed.

(** C6.  For a user who is not an admin and whose unread-gig counter is 1:
    when the lookup returns the request [p1] titled [Sunset Shoot], the first
    candidate has identity [gig-p1] and the message
    [You've been hired for "Sunset Shoot"!]; when the lookup returns nothing,
    or fails, it has identity [gigs-<uid>] and the message
    [You have 1 new gig!].  The two identities differ, and in each case
    whatever follows is a review request. *)
Theorem gig_identity_depends_on_lookup (uid : string) (fetchedUserData : User.t)
    (gig : ProjectRequest.t Timestamp) (more : list (ProjectRequest.t Timestamp)) :
  User.role fetchedUserData ≠ "admin" →
  User.unreadGigsCount fetchedUserData = Some 1%Z →
  ProjectRequest.id gig = Some "p1" →
  ProjectRequest.title gig = "Sunset Shoot" →
  let resolved :=
    {| id := "gig-p1"; type := gig_hired;
       message := "You've been hired for " +:+ dquote +:+ "Sunset Shoot" +:+ dquote +:+ "!";
       link := "/requests/p1"; timestamp := Timestamp_now 0;
       recipientEmail := User.email fetchedUserData;
       recipientName := User.name fetchedUserData |} in
  let fallback :=
    {| id := "gigs-" +:+ uid; type := gig_hired;
       message := "You have 1 new gig!";
       link := "/requests"; timestamp := Timestamp_now 0;
       recipientEmail := User.email fetchedUserData;
       recipientName := User.name fetchedUserData |} in
  (∃ l, produce (userDocProducer uid fetchedUserData (Resolved (gig :: more)))
        = resolved :: l
        ∧ Forall (λ c, type c = review_request) l)
  ∧ (∃ l, produce (userDocProducer uid fetchedUserData (Resolved []))
          = fallback :: l
          ∧ Forall (λ c, type c = review_request) l)
  ∧ (∃ l, produce (userDocProducer uid fetchedUserData Rejected)
          = fallback :: l
          ∧ Forall (λ c, type c = review_request) l)
  ∧ id resolved ≠ id fallback.
Proof.
  intros Hrole Hcount Hid Htitle resolved fallback.
  apply String.eqb_neq in Hrole.
  unfold produce, userDocProducer. rewrite Hrole, Hcount. simpl.
  unfold block, oneNewGig, push_now. simpl. rewrite Hid, Htitle. simpl.
  split_and!.
  - destruct (positive_count (User.pendingReviewCount fetchedUserData)); simpl;
      eexists; (split; [reflexivity |]); repeat constructor.
  - destruct (positive_count (User.pendingReviewCount fetchedUserData)); simpl;
      eexists; (split; [reflexivity |]); repeat constructor.
  - destruct (positive_count (User.pendingReviewCount fetchedUserData)); simpl;
      eexists; (split; [reflexivity |]); repeat constructor.
  - discriminate.
Qed.

(** ** Further properties *)

(** *** What a session keeps *)

Lemma mergePass_identities (w : Session) p k :
  k ∈ identities (allNotifications (mergePass w p))
  ↔ k ∈ identities (allNotifications w) ∨ k ∈ id <$> p.1.
Proof.
  unfold mergePass. cbn [allNotifications].
  rewrite mergeNotifications_identities. unfold mergeLoops.
  rewrite mergeStep_map. cbn [fst]. split.
  - intros Hk. apply setAll_keys_inv in Hk as [Hk|Hk]; [| by right].
    left. by apply seedMap_keys.
  - intros [Hk|Hk].
    + by apply setAll_keys_incl, seedMap_keys.
    + apply list_elem_of_fmap in Hk as (c & -> & Hc). by apply setAll_keys_new.
Qed.

(** X1.  After a pass, and whatever passes came before, the list holds one
    entry per identity, goes down in generation time, and carries the flags
    of the read set of that pass. *)
Theorem session_list_invariant (w : Session)
    (passes : list (list Candidate * gset string)) (p : list Candidate * gset string) :
  let l := allNotifications (run w (passes ++ [p])) in
  reconciled l
  ∧ StronglySorted descending l
  ∧ (∀ n, n ∈ l → isRead n = bool_decide (id (core n) ∈ p.2)).
Proof.
  intros l. subst l. rewrite run_snoc. unfold mergePass. cbn [allNotifications].
  split_and!.
  - apply mergeNotifications_reconciled.
  - rewrite mergeNotifications_out. apply sort_sorted.
  - intros n Hn. by rewrite (mergeNotifications_annotated _ _ _ _ _ Hn).
Qed.

(** X2.  The identities of the list are those of the start and of every batch
    merged since: none is dropped and none is made up. *)
Theorem session_identities_exact (w : Session)
    (passes : list (list Candidate * gset string)) :
  (list_to_set (identities (allNotifications (run w passes))) : gset string)
  = list_to_set (identities (allNotifications w))
    ∪ ⋃ ((λ p, list_to_set (id <$> p.1)) <$> passes).
Proof.
  unfold run. revert w. induction passes as [|p passes IH]; intros w; csimpl.
  - by rewrite (right_id_L ∅ (∪)).
  - rewrite IH. rewrite (assoc_L (∪)). f_equal.
    apply set_eq. intros k.
    rewrite elem_of_union, !elem_of_list_to_set. apply mergePass_identities.
Qed.

(** *** What a merge does to one identity *)

Lemma mergeMapping_last prevNotifs l1 c l2 :
  id c ∉ id <$> l2 →
  mergeMapping prevNotifs (l1 ++ c :: l2) !! id c = Some c.
Proof.
  intros Hlast. unfold mergeMapping. rewrite foldl_app. cbn [foldl].
  rewrite foldl_insert_union, lookup_union_r.
  - apply lookup_insert_eq.
  - destruct (batchMapping l2 !! id c) eqn:E; [| done].
    exfalso. apply Hlast, batchMapping_dom. by eexists.
Qed.

(** X3.  The last candidate of a batch for an identity is what the list holds
    for that identity after the merge, with all its fields and with the flag
    of the read set, whatever the list or the batch held for it before; and
    the list holds nothing else under that identity. *)
Theorem merge_last_write_wins prevNotifs (l1 l2 : list Candidate) (c : Candidate)
    readIds sent :
  id c ∉ id <$> l2 →
  let out := (mergeNotifications prevNotifs (l1 ++ c :: l2) readIds sent).1 in
  let entry := {| core := c; isRead := bool_decide (id c ∈ readIds) |} in
  entry ∈ out
  ∧ (∀ n, n ∈ out → id (core n) = id c → n = entry)
  ∧ filter (λ n, id (core n) = id c) out = [entry]
  ∧ filter (λ c', id c' = id c) (core <$> out) = [c].
Proof.
  intros Hlast out entry.
  pose proof (mergeMapping_last prevNotifs l1 c l2 Hlast) as Hc.
  assert (∀ n, n ∈ out ↔
            ∃ c', mergeMapping prevNotifs (l1 ++ c :: l2) !! id c' = Some c'
                  ∧ n = {| core := c'; isRead := bool_decide (id c' ∈ readIds) |})
    as Hout.
  { intros n. subst out. rewrite mergeNotifications_perm, mergeLoops_denote.
    rewrite list_elem_of_fmap. split.
    - intros (c' & -> & Hc'). apply list_elem_of_fmap in Hc' as ([k c''] & -> & Hk).
      apply elem_of_map_to_list in Hk. simpl.
      exists c''. split; [| done].
      by rewrite (mergeMapping_keyed _ _ _ _ Hk).
    - intros (c' & Hc' & ->). exists c'. split; [done |].
      apply list_elem_of_fmap. exists (id c', c'). split; [done |].
      by apply elem_of_map_to_list. }
  assert (entry ∈ out) as Hin by (apply Hout; by exists c).
  assert (∀ n, n ∈ out → id (core n) = id c → n = entry) as Honly.
  { intros n Hn Hid. apply Hout in Hn as (c' & Hc' & ->). simpl in Hid.
    rewrite Hid, Hc in Hc'. by injection Hc' as <-. }
  assert (filter (λ n, id (core n) = id c) out = [entry]) as Hfilter.
  { assert (reconciled out) as Hrec by apply mergeNotifications_reconciled.
    unfold reconciled, identities in Hrec.
    clear Hout. induction out as [|n out IH]; [by apply elem_of_nil in Hin |].
    csimpl in Hrec. apply NoDup_cons in Hrec as [Hn Hrec]. rewrite filter_cons.
    destruct (decide (id (core n) = id c)) as [Hid|Hid].
    - assert (n = entry) as -> by (apply Honly; [left | done]).
      f_equal. apply elem_of_nil_inv. intros n' Hn'.
      apply list_elem_of_filter in Hn' as [Hid' Hn'].
      apply Hn. simpl. rewrite <- Hid'.
      by apply (list_elem_of_fmap_2 (λ n, id (core n))).
    - apply IH; [| | done].
      + apply elem_of_cons in Hin as [<-|Hin]; [done | done].
      + intros n' Hn'. apply Honly. by right. }
  split_and!; [done.. |].
  assert (filter (λ c', id c' = id c) (core <$> out)
          = core <$> filter (λ n, id (core n) = id c) out) as ->.
  { clear. induction out as [|n out IH]; [done |]. csimpl.
    rewrite !filter_cons. case_decide; csimpl; by rewrite IH. }
  by rewrite Hfilter.
Qed.

Lemma descending_annotate readIds l :
  StronglySorted descending l →
  StronglySorted descending (annotate readIds <$> (core <$> l)).
Proof.
  induction 1 as [|a l Hl IH Ha]; csimpl; constructor; [done |].
  rewrite <- list_fmap_compose. apply Forall_fmap.
  eapply Forall_impl; [exact Ha |]. done.
Qed.

(** X4.  A producer that contributes nothing: merging the empty batch into a
    reconciled list in order keeps the entries and their order, recomputes
    the flags, and makes no mail request. *)
Theorem merge_empty_batch prevNotifs readIds sent :
  reconciled prevNotifs →
  StronglySorted descending prevNotifs →
  mergeNotifications prevNotifs [] readIds sent
  = (annotate readIds <$> (core <$> prevNotifs), []).
Proof.
  intros Hrec Hsorted. unfold mergeNotifications, mergeLoops. cbn [foldl fst snd].
  f_equal. rewrite seedMap_reconciled by done. unfold JsMap.values.
  rewrite <- (list_fmap_compose _ snd). 
  change (snd ∘ (λ n : Notification, (id (core n), core n))) with (@core Timestamp).
  by apply sort_of_sorted, descending_annotate.
Qed.

(** *** The mail a session asks for *)

Lemma string_length_app (s1 s2 : string) :
  String.length (s1 +:+ s2) = String.length s1 + String.length s2.
Proof. induction s1 as [|a s1 IH]; simpl; [done | by rewrite IH]. Qed.

Lemma substring_length_le n m (s : string) : String.length (substring n m s) ≤ m.
Proof.
  revert n m. induction s as [|a s IH]; intros [|n] [|m]; simpl; try lia.
  - specialize (IH 0 m). lia.
  - apply (IH n 0).
  - apply (IH n (S m)).
Qed.

Lemma mailData_subject_length (n : Notification) :
  String.length (subject (mail_message (mailData n))) ≤ 71.
Proof.
  unfold mailData. cbn [mail_message subject].
  rewrite !string_length_app.
  pose proof (substring_length_le 0 50 (message (core n))). simpl. lia.
Qed.

Lemma truthy_Some (o : option string) :
  truthy o = true → ∃ e, o = Some e ∧ e ≠ "".
Proof.
  destruct o as [e|]; simpl; [| done]. intros He. exists e. split; [done |].
  intros ->. done.
Qed.

(** Every request of a loop comes from a candidate of the batch that is
    not in the read set. *)
Lemma mergeStep_unread readIds sent l m out d :
  d ∈ (foldl (mergeStep readIds sent) (m, out) l).2 →
  d ∈ out ∨ ∃ c, c ∈ l ∧ (id c ∉ readIds) ∧ d.1 = id c.
Proof.
  revert m out. induction l as [|c l IH]; intros m out Hd; [by left |].
  cbn [foldl] in Hd. rewrite mergeStep_eq in Hd. cbn [fst snd] in Hd.
  apply IH in Hd as [Hd|(c' & Hc' & Hread & Hid)].
  - apply elem_of_app in Hd as [Hd|Hd]; [by left |].
    right. destruct (JsMap.has (id c) m); [by apply elem_of_nil in Hd |].
    apply deliveryFor_inv in Hd as (Hread & _ & _ & ->).
    exists c. split_and!; [left | done..].
  - right. exists c'. split_and!; [by right | done..].
Qed.

(** X5.  Every mail request of a session comes from a candidate of one of its
    batches: one that was not in the read set of its pass and carries a
    recipient email.  The mail goes to that one address, and its subject has
    at most 71 characters. *)
Theorem session_mail_shape (passes : list (list Candidate * gset string))
    (d : Delivery) :
  d ∈ mail (run initial passes) →
  ∃ p c e,
    p ∈ passes ∧ c ∈ p.1 ∧ (id c ∉ p.2)
    ∧ recipientEmail c = Some e ∧ e ≠ ""
    ∧ d = (id c, mailData {| core := c; isRead := false |})
    ∧ to d.2 = [Some e]
    ∧ String.length (subject (mail_message d.2)) ≤ 71.
Proof.
  assert (∀ (w : Session) d,
            d ∈ mail (run w passes) →
            d ∈ mail w
            ∨ ∃ p c e,
                p ∈ passes ∧ c ∈ p.1 ∧ (id c ∉ p.2)
                ∧ recipientEmail c = Some e ∧ e ≠ ""
                ∧ d = (id c, mailData {| core := c; isRead := false |})) as Hgen.
  { unfold run. induction passes as [|p passes IH]; intros w d' Hd; [by left |].
    cbn [foldl] in Hd. apply IH in Hd as [Hd|(p' & c & e & Hp' & Hrest)].
    - unfold mergePass in Hd. cbn [mail] in Hd.
      apply elem_of_app in Hd as [Hd|Hd]; [by left |]. right.
      unfold mergeNotifications, mergeLoops in Hd. cbn [snd] in Hd.
      pose proof Hd as Hd'.
      apply mergeStep_origin in Hd as [Hd|(c & Hc & Hmail & ->)];
        [by apply elem_of_nil in Hd |].
      apply mergeStep_unread in Hd' as [Hd'|(c' & Hc' & Hread & Hid)];
        [by apply elem_of_nil in Hd' |].
      simpl in Hid. rewrite <- Hid in Hread.
      apply truthy_Some in Hmail as (e & He & Hne).
      exists p, c, e. split_and!; [left | done..].
    - right. exists p', c, e. split; [by right | done]. }
  intros Hd. apply Hgen in Hd as [Hd|(p & c & e & Hp & Hc & Hread & He & Hne & ->)];
    [by apply elem_of_nil in Hd |].
  exists p, c, e. split_and!; try done.
  - simpl. by rewrite He.
  - apply mailData_subject_length.
Qed.

(** *** Acknowledging notifications *)

(** The identities [handleMarkAsRead] collects. *)
Definition unreadIdsOf (notifs : list Notification) : list string :=
  (λ n, id (core n)) <$> filter (λ n, isRead n = false) notifs.

Lemma handleMarkAsRead_eq (user : option string) notifs :
  handleMarkAsRead user notifs
  = match user with
    | Some uid =>
        if firestore && negb (length (unreadIdsOf notifs) =? 0)
        then [ {| update_path := ["users"; uid];
                  readNotificationIds_arrayUnion := unreadIdsOf notifs |} ]
        else []
    | None => []
    end.
Proof.
  unfold handleMarkAsRead. destruct user as [uid|]; [| done].
  destruct firestore; simpl; [| done]. fold (unreadIdsOf notifs).
  destruct (length notifs =? 0) eqn:Hlen.
  - apply Nat.eqb_eq in Hlen. by destruct notifs.
  - by destruct (length (unreadIdsOf notifs) =? 0).
Qed.

Lemma unreadIdsOf_nil notifs :
  unreadIdsOf notifs = [] ↔ unreadCount notifs = 0.
Proof.
  unfold unreadIdsOf, unreadCount. destruct (filter _ notifs); simpl; split; done.
Qed.

(** The stored read identities after the writes of a handler. *)
Definition stored_after (stored : list string) (us : list UpdateDocument) : list string :=
  foldl applyUpdate stored us.

Lemma stored_after_markAllRead uid notifs stored :
  firestore = true →
  (list_to_set (stored_after stored (handleMarkAsRead (Some uid) notifs)) : gset string)
  = list_to_set stored ∪ list_to_set (unreadIdsOf notifs).
Proof.
  intros Hfs. rewrite handleMarkAsRead_eq, Hfs. cbn [andb].
  destruct (length (unreadIdsOf notifs) =? 0) eqn:E; unfold stored_after; cbn [negb foldl].
  - apply Nat.eqb_eq, nil_length_inv in E. rewrite E. simpl.
    by rewrite (right_id_L ∅ (∪)).
  - unfold applyUpdate. cbn [readNotificationIds_arrayUnion]. apply arrayUnion_set.
Qed.

(** X8.  Marking all read, then merging.  With a signed-in user and the stored
    read identities holding those the list shows as read, the write of
    [handleMarkAsRead] puts every identity of the list in the store; in the
    next merge under the stored set only identities that the batch brings
    anew can be unread, and with an empty batch the counter is zero. *)
Theorem markAllRead_then_merge (uid : string) (notifs : list Notification)
    (stored : list string) (newNotifs : list Candidate) (sent : gset string) :
  firestore = true →
  (∀ n, n ∈ notifs → isRead n = true → id (core n) ∈ stored) →
  let stored' := stored_after stored (handleMarkAsRead (Some uid) notifs) in
  (∀ k, k ∈ identities notifs → k ∈ stored')
  ∧ (∀ n, n ∈ (mergeNotifications notifs newNotifs (list_to_set stored') sent).1 →
          isRead n = false →
          (id (core n) ∉ identities notifs) ∧ id (core n) ∈ id <$> newNotifs)
  ∧ unreadCount (mergeNotifications notifs [] (list_to_set stored') sent).1 = 0.
Proof.
  intros Hfs Hread stored'.
  assert (∀ k, k ∈ identities notifs → k ∈ stored') as Hall.
  { intros k Hk. apply list_elem_of_fmap in Hk as (n & -> & Hn).
    apply (elem_of_list_to_set (C := gset string)). subst stored'.
    rewrite stored_after_markAllRead by done.
    apply elem_of_union. rewrite !elem_of_list_to_set.
    destruct (isRead n) eqn:Hn'; [left; by apply Hread |].
    right. unfold unreadIdsOf. apply (list_elem_of_fmap_2 (λ n, id (core n))).
    by apply list_elem_of_filter. }
  assert (∀ newNotifs n,
            n ∈ (mergeNotifications notifs newNotifs (list_to_set stored') sent).1 →
            isRead n = false →
            (id (core n) ∉ identities notifs) ∧ id (core n) ∈ id <$> newNotifs) as Hunread.
  { intros batch n Hn Hflag.
    assert (id (core n) ∉ identities notifs) as Hnew.
    { intros Hk. apply Hall in Hk.
      rewrite (mergeNotifications_annotated _ _ _ _ _ Hn) in Hflag. simpl in Hflag.
      apply bool_decide_eq_false_1 in Hflag. apply Hflag.
      by apply elem_of_list_to_set. }
    split; [done |].
    apply (list_elem_of_fmap_2 (λ n, id (core n))) in Hn.
    change (id (core n) ∈ identities
              (mergeNotifications notifs batch (list_to_set stored') sent).1) in Hn.
    rewrite mergeNotifications_identities in Hn. unfold mergeLoops in Hn.
    rewrite mergeStep_map in Hn. cbn [fst] in Hn.
    apply setAll_keys_inv in Hn as [Hn|Hn]; [| done].
    by apply seedMap_keys in Hn. }
  split_and!; [done | apply Hunread |].
  unfold unreadCount.
  destruct (filter _ _) as [|n l] eqn:E; [done |]. exfalso.
  assert (n ∈ filter (λ n, isRead n = false)
                (mergeNotifications notifs [] (list_to_set stored') sent).1) as Hn
    by (rewrite E; left).
  apply list_elem_of_filter in Hn as [Hflag Hn].
  destruct (Hunread [] n Hn Hflag) as [_ Hin]. by apply elem_of_nil in Hin.
Qed.

Lemma unreadCount_merge prevNotifs newNotifs readIds sent :
  unreadCount (mergeNotifications prevNotifs newNotifs readIds sent).1
  = size ((list_to_set (mergeLoops prevNotifs newNotifs readIds sent).1.*1 : gset string)
          ∖ readIds).
Proof.
  rewrite mergeNotifications_out.
  rewrite (unreadCount_perm _ _ (sort_perm _)).
  rewrite unreadCount_annotate; rewrite keyed_identities by apply mergeLoops_keyed.
  - done.
  - apply mergeLoops_NoDup.
Qed.

Lemma mergeLoops_keys_sent prevNotifs newNotifs readIds readIds' sent sent' :
  (mergeLoops prevNotifs newNotifs readIds sent).1
  = (mergeLoops prevNotifs newNotifs readIds' sent').1.
Proof. by rewrite !mergeLoops_map. Qed.

Lemma size_remove_one (x : string) (I R : gset string) :
  x ∈ I → x ∉ R → size (I ∖ ({[x]} ∪ R)) + 1 = size (I ∖ R).
Proof.
  intros HI HR.
  assert (I ∖ R = {[x]} ∪ I ∖ ({[x]} ∪ R)) as ->.
  { apply set_eq. intros k. destruct (decide (k = x)) as [->|Hne]; set_solver. }
  rewrite (size_union ({[x]} : gset string) (I ∖ ({[x]} ∪ R))) by set_solver.
  rewrite size_singleton. lia.
Qed.

(** X9.  Selecting an entry.  With a signed-in user and the store handle,
    [handleItemSelect] issues exactly one write, to [users/<uid>], an
    [arrayUnion] of the one selected identity; it pushes the selected link and
    nothing else, and closes the menu.  The stored read identities are then
    the old ones, with the selected identity appended when it was not among
    them.  Without a user or without the handle it writes nothing, pushes
    nothing and leaves the menu as it was.  When the write is made for an
    identity of the list that was not stored yet, the next merge under the
    stored identities counts one unread entry less than a merge under the old
    ones; when the identity was stored already, the stored identities do not
    change. *)
Theorem itemSelect_marks_read (user : option string) (isOpen0 : bool)
    (link0 notifId : string) (notifs : list Notification) (stored : list string)
    (newNotifs : list Candidate) (sent : gset string) :
  let e := handleItemSelect user isOpen0 link0 notifId in
  let stored' := stored_after stored (updates e) in
  (∀ uid, user = Some uid → firestore = true →
     updates e = [ {| update_path := ["users"; uid];
                      readNotificationIds_arrayUnion := [notifId] |} ]
     ∧ pushed e = [link0]
     ∧ isOpen e = false
     ∧ stored' = (if bool_decide (notifId ∈ stored) then stored else stored ++ [notifId])
     ∧ (notifId ∈ identities notifs → notifId ∉ stored →
          unreadCount (mergeNotifications notifs newNotifs (list_to_set stored') sent).1 + 1
          = unreadCount (mergeNotifications notifs newNotifs (list_to_set stored) sent).1))
  ∧ (user = None ∨ firestore = false →
       updates e = [] ∧ pushed e = [] ∧ isOpen e = isOpen0 ∧ stored' = stored).
Proof.
  intros e stored'. split.
  - intros uid -> Hfs.
    assert (updates e = [ {| update_path := ["users"; uid];
                             readNotificationIds_arrayUnion := [notifId] |} ]
            ∧ pushed e = [link0] ∧ isOpen e = false) as (Hu & Hp & Ho).
    { subst e. unfold handleItemSelect. by rewrite Hfs. }
    assert (stored' = (if bool_decide (notifId ∈ stored) then stored
                       else stored ++ [notifId])) as Hstored.
    { subst stored'. by rewrite Hu. }
    split_and!; [done.. |].
    intros Hin Hnew. rewrite Hstored, bool_decide_eq_false_2 by done.
    rewrite !unreadCount_merge.
    rewrite (mergeLoops_keys_sent _ _ _ (list_to_set stored) _ sent).
    set (I := (list_to_set (mergeLoops notifs newNotifs (list_to_set stored) sent).1.*1
                 : gset string)).
    assert (notifId ∈ I) as HI.
    { subst I. apply elem_of_list_to_set. unfold mergeLoops. rewrite mergeStep_map.
      cbn [fst]. by apply setAll_keys_incl, seedMap_keys. }
    assert (notifId ∉ (list_to_set stored : gset string)) as Hout
      by by rewrite elem_of_list_to_set.
    assert ((list_to_set (stored ++ [notifId]) : gset string)
            = {[ notifId ]} ∪ list_to_set stored) as -> by set_solver.
    by apply size_remove_one.
  - intros Hno. subst stored' e. unfold handleItemSelect.
    destruct user as [uid|]; [| done].
    destruct Hno as [? | ->]; done.
Qed.

(** X10.  Opening the menu writes nothing.  Closing it does what
    [handleMarkAsRead] does: the test on the counter never changes the
    outcome. *)
Theorem handleOpenChange_writes (user : option string) (notifs : list Notification)
    (open : bool) :
  updates (handleOpenChange user notifs open)
  = (if open then [] else handleMarkAsRead user notifs)
  ∧ pushed (handleOpenChange user notifs open) = []
  ∧ isOpen (handleOpenChange user notifs open) = open
  ∧ (hasUnread notifs = false → updates (handleOpenChange user notifs open) = []).
Proof.
  unfold handleOpenChange, hasUnread. cbn [updates pushed isOpen].
  assert ((0 <? unreadCount notifs) = false → handleMarkAsRead user notifs = []) as Hzero.
  { intros H0. apply Nat.ltb_ge in H0.
    assert (unreadIdsOf notifs = []) as Hnil by (apply unreadIdsOf_nil; lia).
    rewrite handleMarkAsRead_eq, Hnil. destruct user; [| done].
    simpl. by rewrite andb_false_r. }
  split_and!; [| done | done |].
  - destruct open; simpl; [done |].
    destruct (0 <? unreadCount notifs) eqn:E; [done |]. by rewrite Hzero.
  - intros ->. by rewrite andb_false_r.
Qed.

(** *** The producers of the user document *)

Ltac sublist_steps :=
  repeat first [ apply sublist_nil_l | apply sublist_skip | apply sublist_cons ].

(** What a counter of the user document contributes: one entry, made from its
    value, when the counter is there and above zero. *)
Definition for_counter {A} (counter : option Z) (x : Z → A) : list A :=
  match counter with
  | Some z => if bool_decide (0 < z)%Z then [x z] else []
  | None => []
  end.

(** X11.  The candidates of an admin's document.  The counter of open reports
    gives [reports-<uid>], a [new_report] that links to [/admin/reports]; the
    counter of unread contact submissions gives [contact-<uid>], a
    [new_contact_submission] that links to [/admin/inbox]; the counter of
    disputed projects gives [disputes-<uid>], a [project_disputed] that links
    to [/admin/projects]; each when its own counter is above zero, in this
    order, and nothing else.  The k-th candidate carries the k-th reading of
    the clock, the fixed admin address, not the address of the document, and
    the name of the document.  The message of each names its own counter
    (stated for counters up to 2^53).  Nothing else decides the candidates:
    two admin documents with the same name and the same three counters give
    the same candidates, whatever their gig and review counters, their
    addresses, and the outcome of the gig lookup. *)
Theorem admin_candidates (uid : string) (fetchedUserData : User.t)
    (gigSnap : QueryResult Timestamp) :
  User.role fetchedUserData = "admin" →
  let reports := User.openReportsCount fetchedUserData in
  let contact := User.unreadContactSubmissionsCount fetchedUserData in
  let disputes := User.disputedProjectsCount fetchedUserData in
  let out := produce (userDocProducer uid fetchedUserData gigSnap) in
  (λ c, (id c, type c, link c)) <$> out
  = for_counter reports (λ _, ("reports-" +:+ uid, new_report, "/admin/reports"))
    ++ for_counter contact
         (λ _, ("contact-" +:+ uid, new_contact_submission, "/admin/inbox"))
    ++ for_counter disputes
         (λ _, ("disputes-" +:+ uid, project_disputed, "/admin/projects"))
  ∧ timestamp <$> out = Timestamp_now <$> seq 0 (length out)
  ∧ (∀ c, c ∈ out →
       recipientEmail c = Some "ayn.eee.11@gmail.com"
       ∧ recipientName c = User.name fetchedUserData)
  ∧ (Forall (λ counter, ∀ z, counter = Some z → (z <= 2 ^ 53)%Z)
       [reports; contact; disputes] →
     message <$> out
     = for_counter reports
         (λ z, "There are " +:+ pretty z +:+ " open user reports to review.")
       ++ for_counter contact
            (λ z, "You have " +:+ pretty z +:+ " new contact submission(s).")
       ++ for_counter disputes
            (λ z, "There are " +:+ pretty z +:+ " disputed projects requiring review."))
  ∧ (∀ (other : User.t) (gigSnap' : QueryResult Timestamp),
       User.role other = "admin" →
       User.name other = User.name fetchedUserData →
       User.openReportsCount other = reports →
       User.unreadContactSubmissionsCount other = contact →
       User.disputedProjectsCount other = disputes →
       produce (userDocProducer uid other gigSnap') = out).
Proof.
  intros Hrole reports contact disputes out.
  assert (∀ (u : User.t) g,
            User.role u = "admin" →
            produce (userDocProducer uid u g)
            = newNotifications
                (block [
                   when (positive_count (User.openReportsCount u))
                     (push_now (λ now,
                       {| id := "reports-" +:+ uid; type := new_report;
                          message := "There are " +:+ number (User.openReportsCount u)
                                     +:+ " open user reports to review.";
                          link := "/admin/reports"; timestamp := now;
                          recipientEmail := Some adminEmail;
                          recipientName := User.name u |}));
                   when (positive_count (User.unreadContactSubmissionsCount u))
                     (push_now (λ now,
                       {| id := "contact-" +:+ uid; type := new_contact_submission;
                          message := "You have "
                                     +:+ number (User.unreadContactSubmissionsCount u)
                                     +:+ " new contact submission(s).";
                          link := "/admin/inbox"; timestamp := now;
                          recipientEmail := Some adminEmail;
                          recipientName := User.name u |}));
                   when (positive_count (User.disputedProjectsCount u))
                     (push_now (λ now,
                       {| id := "disputes-" +:+ uid; type := project_disputed;
                          message := "There are " +:+ number (User.disputedProjectsCount u)
                                     +:+ " disputed projects requiring review.";
                          link := "/admin/projects"; timestamp := now;
                          recipientEmail := Some adminEmail;
                          recipientName := User.name u |})) ]
                   {| newNotifications := []; readings := 0 |})) as Hadmin.
  { intros u g Hu. unfold produce, userDocProducer. by rewrite Hu. }
  assert (∀ o : option Z,
            positive_count o
            = match o with Some z => bool_decide (0 < z)%Z | None => false end) as Hpos.
  { intros [z|]; [| done]. unfold positive_count.
    destruct (Z.ltb_spec 0 z).
    - by rewrite bool_decide_eq_true_2.
    - rewrite bool_decide_eq_false_2; [done | lia]. }
  split_and!.
  - subst out. rewrite (Hadmin _ _ Hrole), !Hpos. fold reports contact disputes.
    unfold for_counter, block, push_now.
    destruct reports as [r|]; [destruct (bool_decide (0 < r)%Z) |];
      (destruct contact as [c|]; [destruct (bool_decide (0 < c)%Z) |]);
      (destruct disputes as [d|]; [destruct (bool_decide (0 < d)%Z) |]);
      reflexivity.
  - subst out. rewrite (Hadmin _ _ Hrole). unfold block, push_now.
    destruct (positive_count (User.openReportsCount fetchedUserData));
      destruct (positive_count (User.unreadContactSubmissionsCount fetchedUserData));
      destruct (positive_count (User.disputedProjectsCount fetchedUserData));
      reflexivity.
  - intros c Hc. subst out. rewrite (Hadmin _ _ Hrole) in Hc.
    unfold block, push_now in Hc.
    destruct (positive_count (User.openReportsCount fetchedUserData));
      destruct (positive_count (User.unreadContactSubmissionsCount fetchedUserData));
      destruct (positive_count (User.disputedProjectsCount fetchedUserData));
      cbn [when foldl newNotifications readings app skip] in Hc;
      repeat (apply elem_of_cons in Hc as [-> | Hc]; [done |]);
      by apply elem_of_nil in Hc.
  - intros _. subst out. rewrite (Hadmin _ _ Hrole), !Hpos.
    fold reports contact disputes.
    unfold for_counter, block, push_now, number.
    destruct reports as [r|]; [destruct (bool_decide (0 < r)%Z) |];
      (destruct contact as [c|]; [destruct (bool_decide (0 < c)%Z) |]);
      (destruct disputes as [d|]; [destruct (bool_decide (0 < d)%Z) |]);
      reflexivity.
  - intros other gigSnap' Hother Hname Hr Hc Hd. subst out reports contact disputes.
    rewrite (Hadmin _ _ Hother), (Hadmin _ _ Hrole). by rewrite Hname, Hr, Hc, Hd.
Qed.

(** X12.  A document that is not an admin's gives one gig notification exactly
    when the gig counter is positive and one review notification exactly
    when the review counter is, each to the address of the document, and
    nothing else.  The lookup matters only when the gig counter is 1. *)
Theorem user_candidates (uid : string) (fetchedUserData : User.t)
    (gigSnap : QueryResult Timestamp) :
  User.role fetchedUserData ≠ "admin" →
  let out := produce (userDocProducer uid fetchedUserData gigSnap) in
  type <$> out
  = (if positive_count (User.unreadGigsCount fetchedUserData) then [gig_hired] else [])
    ++ (if positive_count (User.pendingReviewCount fetchedUserData)
        then [review_request] else [])
  ∧ Forall (λ c, recipientEmail c = User.email fetchedUserData
                 ∧ recipientName c = User.name fetchedUserData) out
  ∧ (User.unreadGigsCount fetchedUserData ≠ Some 1%Z →
     out = produce (userDocProducer uid fetchedUserData Rejected)).
Proof.
  intros Hrole out. subst out. apply String.eqb_neq in Hrole.
  unfold produce, userDocProducer. rewrite Hrole.
  unfold block, oneNewGig, push_now.
  destruct (User.unreadGigsCount fetchedUserData) as [z|];
    unfold default; cbn [from_option positive_count]; unfold Datatypes.id.
  - destruct (0 <? z)%Z eqn:Hpos; cbn [when].
    + destruct (z =? 1)%Z eqn:Hone.
      * apply Z.eqb_eq in Hone as ->.
        destruct gigSnap as [[|gig more]|];
          destruct (positive_count (User.pendingReviewCount fetchedUserData));
          cbn [when foldl newNotifications readings app skip fmap list_fmap type];
          (split_and!; [reflexivity | repeat constructor | by intros []]).
      * destruct (positive_count (User.pendingReviewCount fetchedUserData));
          cbn [when foldl newNotifications readings app skip fmap list_fmap type];
          (split_and!; [reflexivity | repeat constructor | reflexivity]).
    + destruct (positive_count (User.pendingReviewCount fetchedUserData));
        cbn [when foldl newNotifications readings app skip fmap list_fmap type];
        (split_and!; [reflexivity | repeat constructor | reflexivity]).
  - cbn [Z.ltb Z.compare when].
    destruct (positive_count (User.pendingReviewCount fetchedUserData));
      cbn [when foldl newNotifications readings app skip fmap list_fmap type];
      (split_and!; [reflexivity | repeat constructor | reflexivity]).
Qed.

(** *** The producer of the requests *)

(** X13.  A request of which the viewing user is neither the owner nor the hired
    photographer gives only the notifications of a completed project and of
    a resolved dispute. *)
Theorem bystander_candidates (uid : string) (userData : option User.t)
    (docs : list (QueryDocumentSnapshot Timestamp)) :
  (∀ d, d ∈ docs →
        ProjectRequest.userId (doc_data d) ≠ uid
        ∧ ProjectRequest.hiredPhotographerId (doc_data d) ≠ Some uid) →
  Forall (λ c, type c = project_completed ∨ type c = dispute_resolved)
         (produce (processProjectSnapshot uid userData docs)).
Proof.
  intros Hby.
  assert (appends (processProjectSnapshot uid userData docs)
            (λ c, type c = project_completed ∨ type c = dispute_resolved)) as Happ.
  { unfold processProjectSnapshot. apply appends_block.
    apply Forall_fmap, Forall_forall. intros d Hd. simpl.
    destruct (Hby d Hd) as [Howner Hhired]. apply String.eqb_neq in Howner.
    unfold processDoc. rewrite Howner, (bool_decide_eq_false_2 _ Hhired).
    appends_steps; simpl; auto. }
  unfold produce. destruct (Happ {| newNotifications := []; readings := 0 |})
    as (l & -> & Hl). done.
Qed.

(** The identities a request can give, in the order of [processDoc]. *)
Definition slots (rid : string) : list string :=
  [ "bid-" +:+ rid; "delivery-" +:+ rid; "booking-approved-" +:+ rid;
    "booking-declined-" +:+ rid; "booking-" +:+ rid; "review-" +:+ rid;
    "completed-" +:+ rid; "dispute-res-" +:+ rid ].

(** A request id that does not start with [approved-] or [declined-]. *)
Definition plain_id (rid : string) : Prop :=
  ∀ x, rid ≠ "approved-" +:+ x ∧ rid ≠ "declined-" +:+ x.

(** A statement only appends, and the identities it appends are picked in
    order from [L]. *)
Definition appends_in (p : Producer) (L : list string) : Prop :=
  ∀ s, ∃ l, newNotifications (p s) = newNotifications s ++ l
            ∧ id <$> l `sublist_of` L.

Lemma appends_in_skip L : appends_in skip L.
Proof. intros s. exists []. rewrite app_nil_r. split; [done | apply sublist_nil_l]. Qed.

Lemma appends_in_push c : appends_in (push c) [id c].
Proof. intros s. by exists [c]. Qed.

Lemma appends_in_push_now c i : (∀ now, id (c now) = i) → appends_in (push_now c) [i].
Proof.
  intros Hc s. exists [c (Timestamp_now (readings s))]. split; [done |].
  csimpl. by rewrite Hc.
Qed.

Lemma appends_in_when b p L : appends_in p L → appends_in (when b p) L.
Proof. intros Hp. destruct b; [done | apply appends_in_skip]. Qed.

Lemma appends_in_weaken p L L' : appends_in p L → L `sublist_of` L' → appends_in p L'.
Proof.
  intros Hp HL s. destruct (Hp s) as (l & Hl & Hsub). exists l. split; [done |].
  by etrans.
Qed.

Lemma appends_in_nil : appends_in (block []) [].
Proof. intros s. exists []. by rewrite app_nil_r. Qed.

Lemma appends_in_cons p ps L1 L2 :
  appends_in p L1 → appends_in (block ps) L2 → appends_in (block (p :: ps)) (L1 ++ L2).
Proof.
  intros Hp Hps s. rewrite block_cons.
  destruct (Hp s) as (l1 & Hl1 & Hs1). destruct (Hps (p s)) as (l2 & Hl2 & Hs2).
  exists (l1 ++ l2). rewrite Hl2, Hl1, app_assoc. split; [done |].
  rewrite fmap_app. by apply sublist_app.
Qed.

Lemma processDoc_slots uid userData doc :
  appends_in (processDoc uid userData doc) (slots (request_id doc)).
Proof.
  unfold processDoc, slots. set (rid := request_id doc).
  change [ "bid-" +:+ rid; "delivery-" +:+ rid; "booking-approved-" +:+ rid;
           "booking-declined-" +:+ rid; "booking-" +:+ rid; "review-" +:+ rid;
           "completed-" +:+ rid; "dispute-res-" +:+ rid ]
    with ((["bid-" +:+ rid] ++ ["delivery-" +:+ rid]
           ++ ["booking-approved-" +:+ rid; "booking-declined-" +:+ rid] ++ [])
          ++ (["booking-" +:+ rid] ++ ["review-" +:+ rid] ++ [])
          ++ ["completed-" +:+ rid] ++ ["dispute-res-" +:+ rid] ++ []).
  repeat first
    [ apply appends_in_nil
    | apply appends_in_cons
    | apply appends_in_when ];
    try (apply appends_in_push_now; done);
    try apply appends_in_push.
  - destruct (ProjectRequest.photographerRespondedAt (doc_data doc));
      [| apply appends_in_skip].
    destruct (String.eqb (ProjectRequest.status (doc_data doc)) "Pending").
    + eapply appends_in_weaken; [apply appends_in_push |]. sublist_steps.
    + destruct (String.eqb (ProjectRequest.status (doc_data doc)) "Disabled");
        [| apply appends_in_skip].
      eapply appends_in_weaken; [apply appends_in_push |]. sublist_steps.
  - destruct (ProjectRequest.disputeResolvedAt (doc_data doc));
      [apply appends_in_push | apply appends_in_skip].
Qed.

Lemma processProjectSnapshot_slots uid userData docs :
  appends_in (processProjectSnapshot uid userData docs)
             (concat (slots <$> (request_id <$> docs))).
Proof.
  unfold processProjectSnapshot. induction docs as [|doc docs IH].
  - apply appends_in_nil.
  - change (appends_in
              (block (processDoc uid userData doc :: (processDoc uid userData <$> docs)))
              (slots (request_id doc) ++ concat (slots <$> (request_id <$> docs)))).
    apply appends_in_cons; [apply processDoc_slots | exact IH].
Qed.

Lemma slots_NoDup rid : plain_id rid → NoDup (slots rid).
Proof.
  intros Hplain. unfold slots.
  repeat (apply NoDup_cons_2;
          [ rewrite ?not_elem_of_cons; split_and!;
            try apply not_elem_of_nil;
            intros Heq; simplify_eq/=
          | ]); try apply NoDup_nil_2.
  all: try apply NoDup_singleton.
  all: change ("" +:+ rid) with rid in *; destruct (Hplain rid) as [Ha Hd]; congruence.
Qed.

Lemma slots_disjoint r r' x :
  plain_id r → plain_id r' → r ≠ r' → x ∈ slots r → x ∈ slots r' → False.
Proof.
  intros Hp Hp' Hne Hx Hx'. unfold slots in Hx, Hx'.
  destruct (Hp r') as [Ha Hd]. destruct (Hp' r) as [Ha' Hd'].
  repeat (apply elem_of_cons in Hx as [->|Hx]);
    try (by apply elem_of_nil in Hx);
    repeat (apply elem_of_cons in Hx' as [Hx'|Hx']);
    try (by apply elem_of_nil in Hx');
    simplify_eq/=;
    change ("" +:+ r) with r in *; change ("" +:+ r') with r' in *;
    congruence.
Qed.

Lemma slots_concat_NoDup (rids : list string) :
  NoDup rids → Forall plain_id rids → NoDup (concat (slots <$> rids)).
Proof.
  induction 1 as [|r rids Hr Hnd IH]; intros Hplain; csimpl; [constructor |].
  apply Forall_cons in Hplain as [Hp Hps].
  change (NoDup (slots r ++ concat (slots <$> rids))).
  apply NoDup_app. split_and!; [by apply slots_NoDup | | by apply IH].
  intros x Hx Hx'. apply list_elem_of_In, in_concat in Hx' as (L & HL & Hx').
  apply list_elem_of_In in HL, Hx'.
  apply list_elem_of_fmap in HL as (r' & -> & Hr').
  rewrite Forall_forall in Hps.
  apply (slots_disjoint r r' x); [done | by apply Hps | | done | done].
  intros ->. done.
Qed.

(** X14.  In a snapshot of distinct requests whose ids do not start with
    [approved-] or [declined-], no two candidates share an identity, so a
    merge into the empty list keeps them all.  (The identity
    [booking-<id>] of a request [approved-r] is the identity
    [booking-approved-<id>] of a request [r].) *)
Theorem snapshot_identities_distinct (uid : string) (userData : option User.t)
    (docs : list (QueryDocumentSnapshot Timestamp)) (readIds sent : gset string) :
  NoDup (request_id <$> docs) →
  Forall plain_id (request_id <$> docs) →
  let batch := produce (processProjectSnapshot uid userData docs) in
  NoDup (id <$> batch)
  ∧ id <$> batch `sublist_of` concat (slots <$> (request_id <$> docs))
  ∧ length (mergeNotifications [] batch readIds sent).1 = length batch.
Proof.
  intros Hnd Hplain batch.
  destruct (processProjectSnapshot_slots uid userData docs
              {| newNotifications := []; readings := 0 |}) as (l & Hl & Hsub).
  assert (batch = l) as -> by (subst batch; unfold produce; by rewrite Hl).
  assert (NoDup (id <$> l)) as Hids.
  { eapply sublist_NoDup; [| exact Hsub]. by apply slots_concat_NoDup. }
  split_and!; [done | done |].
  rewrite mergeNotifications_out, sort_perm, length_fmap. unfold JsMap.values.
  rewrite length_fmap, mergeLoops_map. cbn [fmap list_fmap setAll foldl].
  change (foldl (λ m c, JsMap.set (id c) c m) JsMap.empty l) with (setAll JsMap.empty l).
  rewrite setAll_fresh by done. by rewrite app_nil_l, length_fmap.
Qed.

(** *** The chat-room handler *)

Lemma unreadFromOther_Some uid (room : ChatRoom.t Timestamp) m :
  unreadFromOther uid room = Some m
  ↔ ChatRoom.lastMessage room = Some m
    ∧ (ChatRoom.hasUnreadMessages room ≫= (λ flags, flags !! uid)) = Some true
    ∧ senderId m ≠ uid.
Proof.
  unfold unreadFromOther. destruct (ChatRoom.lastMessage room) as [m'|]; [| naive_solver].
  destruct (ChatRoom.hasUnreadMessages room ≫= (λ flags, flags !! uid)) as [[|]|];
    simpl; destruct (String.eqb_spec (senderId m') uid); simpl; naive_solver.
Qed.

(** The step of the first loop. *)
Definition fetchStep (uid : string) (usersMap : gmap string User.t)
    (ids : list string) (room : ChatRoom.t Timestamp) : list string :=
  match unreadFromOther uid room with
  | Some m =>
      if bool_decide (is_Some (usersMap !! senderId m)) then ids
      else if bool_decide (senderId m ∈ ids) then ids
      else ids ++ [senderId m]
  | None => ids
  end.

Lemma fetchStep_elem uid usersMap ids room i :
  i ∈ fetchStep uid usersMap ids room
  ↔ i ∈ ids
    ∨ ∃ m, unreadFromOther uid room = Some m ∧ senderId m = i ∧ usersMap !! i = None.
Proof.
  unfold fetchStep. destruct (unreadFromOther uid room) as [m|]; [| naive_solver].
  case_bool_decide as Hknown.
  - split; [by left |]. intros [?|(m' & Hm' & Hi & Hnone)]; [done |].
    simplify_eq. rewrite Hnone in Hknown. by destruct Hknown.
  - assert (usersMap !! senderId m = None) as Hnone.
    { destruct (usersMap !! senderId m); [| done]. destruct Hknown. by eexists. }
    case_bool_decide as Hin.
    + split; [by left |]. intros [?|(m' & Hm' & Hi & _)]; [done |]. by simplify_eq.
    + rewrite elem_of_app, list_elem_of_singleton. split.
      * intros [? | ->]; [by left |]. right. by exists m.
      * intros [?|(m' & Hm' & Hi & _)]; [by left |]. right. by simplify_eq.
Qed.

Lemma fetchStep_NoDup uid usersMap ids room :
  NoDup ids → NoDup (fetchStep uid usersMap ids room).
Proof.
  intros Hnd. unfold fetchStep. destruct (unreadFromOther uid room) as [m|]; [| done].
  repeat case_bool_decide; try done.
  apply NoDup_app. split_and!; [done | | apply NoDup_singleton].
  intros x Hx ->%list_elem_of_singleton. done.
Qed.

(** X15.  The users the handler asks the store for: each once, each the sender
    of the last message of a room with unread messages for the user, none
    that [usersMap] knows, and never the user. *)
Theorem userIdsToFetch_spec (uid : string) (usersMap : gmap string User.t)
    (rooms : list (ChatRoom.t Timestamp)) :
  NoDup (userIdsToFetch uid usersMap rooms)
  ∧ (∀ i, i ∈ userIdsToFetch uid usersMap rooms
          ↔ ∃ room m, room ∈ rooms ∧ unreadFromOther uid room = Some m
                      ∧ senderId m = i ∧ usersMap !! i = None)
  ∧ uid ∉ userIdsToFetch uid usersMap rooms.
Proof.
  assert (∀ ids, NoDup ids →
            NoDup (foldl (fetchStep uid usersMap) ids rooms)
            ∧ ∀ i, i ∈ foldl (fetchStep uid usersMap) ids rooms
                   ↔ i ∈ ids
                     ∨ ∃ room m, room ∈ rooms ∧ unreadFromOther uid room = Some m
                                 ∧ senderId m = i ∧ usersMap !! i = None) as Hgen.
  { induction rooms as [|room rooms IH]; intros ids Hnd; cbn [foldl].
    - split; [done |]. intros i. split; [by left |].
      intros [?|(room & m & Hin & _)]; [done | by apply elem_of_nil in Hin].
    - destruct (IH (fetchStep uid usersMap ids room)) as [Hnd' Hin'];
        [by apply fetchStep_NoDup |].
      split; [done |]. intros i. rewrite Hin', fetchStep_elem. split.
      + intros [[?|(m & Hm & Hi & Hn)]|(room' & m & Hr & Hm)]; [by left | |].
        * right. exists room, m. split_and!; [left | done..].
        * right. exists room', m. split; [by right | done].
      + intros [?|(room' & m & Hr & Hm)]; [by left; left |].
        apply elem_of_cons in Hr as [->|Hr].
        * left. right. by exists m.
        * right. by exists room', m. }
  destruct (Hgen [] (NoDup_nil_2)) as [Hnd Hin].
  assert (∀ i, i ∈ userIdsToFetch uid usersMap rooms
               ↔ ∃ room m, room ∈ rooms ∧ unreadFromOther uid room = Some m
                           ∧ senderId m = i ∧ usersMap !! i = None) as Hspec.
  { intros i. unfold userIdsToFetch. fold (fetchStep uid usersMap). rewrite Hin.
    split; [intros [H|H]; [by apply elem_of_nil in H | done] | by right]. }
  split_and!; [exact Hnd | exact Hspec |].
  intros Huid. apply Hspec in Huid as (room & m & _ & Hm & Hid & _).
  apply unreadFromOther_Some in Hm as (_ & _ & Hne). done.
Qed.

Lemma chatLoop_resolved uid userData usersMap getDoc rooms :
  (∀ k i, getDoc k i ≠ DocRejected) →
  ∀ calls acc,
    ∃ out, chatLoop uid userData usersMap getDoc calls acc rooms = Some (acc ++ out)
      ∧ id <$> out
        = (λ r, "msg-" +:+ ChatRoom.id r)
            <$> filter (λ r, is_Some (unreadFromOther uid r)) rooms
      ∧ Forall (λ c, (type c = project_chat ∨ type c = direct_message)
                     ∧ recipientEmail c = userData ≫= User.email
                     ∧ recipientName c = userData ≫= User.name) out.
Proof.
  intros Hok. induction rooms as [|room rooms IH]; intros calls acc; cbn [chatLoop].
  - exists []. by rewrite app_nil_r.
  - rewrite filter_cons.
    destruct (unreadFromOther uid room) as [m|] eqn:Hm.
    + rewrite decide_True by by eexists.
      assert (∀ sender, (type (chatCandidate userData room m sender) = project_chat
                         ∨ type (chatCandidate userData room m sender) = direct_message)
                        ∧ recipientEmail (chatCandidate userData room m sender)
                          = userData ≫= User.email
                        ∧ recipientName (chatCandidate userData room m sender)
                          = userData ≫= User.name) as Hcand.
      { intros sender. unfold chatCandidate. cbn [type recipientEmail recipientName].
        destruct (ChatRoom.isProjectChat room); auto. }
      destruct (usersMap !! senderId m) as [sender|].
      * destruct (IH calls (acc ++ [chatCandidate userData room m (Some sender)]))
          as (out & -> & Hids & Hall).
        exists (chatCandidate userData room m (Some sender) :: out).
        rewrite <- app_assoc. split_and!; [done | | by constructor].
        csimpl. by rewrite Hids.
      * destruct (getDoc calls (senderId m)) as [sender|] eqn:Hdoc;
          [| by destruct (Hok calls (senderId m))].
        destruct (IH (S calls) (acc ++ [chatCandidate userData room m sender]))
          as (out & -> & Hids & Hall).
        exists (chatCandidate userData room m sender :: out).
        rewrite <- app_assoc. split_and!; [done | | by constructor].
        csimpl. by rewrite Hids.
    + rewrite decide_False by (intros [? ?]; done). apply IH.
Qed.

(** X16.  When no lookup of a sender is rejected, the handler merges one
    notification for each room whose last message is unread and from someone
    else, in the order of the rooms and under the identity [msg-<room>];
    each is a chat notification addressed to the viewing user. *)
Theorem chat_candidates (uid : string) (userData : option User.t)
    (usersMap : gmap string User.t) (getDoc : nat → string → DocResult)
    (rooms : list (ChatRoom.t Timestamp)) :
  (∀ k i, getDoc k i ≠ DocRejected) →
  ∃ out, chatProducer uid userData usersMap getDoc rooms = Some out
    ∧ id <$> out
      = (λ r, "msg-" +:+ ChatRoom.id r)
          <$> filter (λ r, is_Some (unreadFromOther uid r)) rooms
    ∧ Forall (λ c, (type c = project_chat ∨ type c = direct_message)
                   ∧ recipientEmail c = userData ≫= User.email
                   ∧ recipientName c = userData ≫= User.name) out.
Proof.
  intros Hok. unfold chatProducer.
  destruct (chatLoop_resolved uid userData usersMap getDoc rooms Hok 0 [])
    as (out & Hout & Hrest).
  exists out. by rewrite Hout.
Qed.

Lemma chatLoop_known uid userData usersMap getDoc getDoc' rooms :
  (∀ room m, room ∈ rooms → unreadFromOther uid room = Some m →
             is_Some (usersMap !! senderId m)) →
  ∀ calls calls' acc,
    chatLoop uid userData usersMap getDoc calls acc rooms
    = chatLoop uid userData usersMap getDoc' calls' acc rooms
    ∧ is_Some (chatLoop uid userData usersMap getDoc calls acc rooms).
Proof.
  induction rooms as [|room rooms IH]; intros Hknown calls calls' acc; cbn [chatLoop].
  - split; [done | by eexists].
  - assert (∀ room' m, room' ∈ rooms → unreadFromOther uid room' = Some m →
                       is_Some (usersMap !! senderId m)) as Hrest.
    { intros room' m Hr. apply Hknown. by right. }
    destruct (unreadFromOther uid room) as [m|] eqn:Hm; [| by apply IH].
    destruct (Hknown room m) as [sender Hsender]; [left | done |].
    rewrite Hsender. by apply IH.
Qed.

Lemma userIdsToFetch_known uid usersMap rooms :
  (∀ room m, room ∈ rooms → unreadFromOther uid room = Some m →
             is_Some (usersMap !! senderId m)) →
  userIdsToFetch uid usersMap rooms = [].
Proof.
  intros Hknown. unfold userIdsToFetch.
  induction rooms as [|room rooms IH]; cbn [foldl]; [done |].
  destruct (unreadFromOther uid room) as [m|] eqn:Hm.
  - rewrite bool_decide_eq_true_2 by (apply (Hknown room m); [left | done]).
    apply IH. intros room' m' Hr. apply Hknown. by right.
  - apply IH. intros room' m' Hr. apply Hknown. by right.
Qed.

(** X17.  When [usersMap] knows the sender of every room that counts, the
    handler asks the store for no user: the outcome does not depend on the
    lookups, the notifications are merged, and [usersMap] stays as it is. *)
Theorem chat_known_senders (uid : string) (userData : option User.t)
    (usersMap : gmap string User.t) (usersSnap : option (list (string * User.t)))
    (getDoc : nat → string → DocResult) (rooms : list (ChatRoom.t Timestamp))
    (w : Session) :
  (∀ room m, room ∈ rooms → unreadFromOther uid room = Some m →
             is_Some (usersMap !! senderId m)) →
  ∃ out,
    chatProducer uid userData usersMap getDoc rooms = Some out
    ∧ chatProducer uid userData usersMap (λ _ _, DocRejected) rooms = Some out
    ∧ userIdsToFetch uid usersMap rooms = []
    ∧ onChatRoomsSnapshot uid userData usersMap usersSnap getDoc rooms w
      = (mergePass w (out, readIdsOf userData), usersMap).
Proof.
  intros Hknown.
  destruct (chatLoop_known uid userData usersMap getDoc (λ _ _, DocRejected) rooms
              Hknown 0 0 []) as [Heq [out Hout]].
  exists out. unfold onChatRoomsSnapshot, chatProducer.
  rewrite <- Heq, Hout, (userIdsToFetch_known _ _ _ Hknown).
  split_and!; done.
Qed.

Lemma chatLoop_rejected uid userData usersMap rooms :
  (∃ room m, room ∈ rooms ∧ unreadFromOther uid room = Some m
             ∧ usersMap !! senderId m = None) →
  ∀ calls acc,
    chatLoop uid userData usersMap (λ _ _, DocRejected) calls acc rooms = None.
Proof.
  induction rooms as [|room rooms IH]; intros (room' & m & Hr & Hm & Hnone) calls acc.
  - by apply elem_of_nil in Hr.
  - cbn [chatLoop]. apply elem_of_cons in Hr as [->|Hr].
    + by rewrite Hm, Hnone.
    + assert (∃ room m, room ∈ rooms ∧ unreadFromOther uid room = Some m
                        ∧ usersMap !! senderId m = None) as Hex by by exists room', m.
      destruct (unreadFromOther uid room) as [m0|]; [| by apply IH].
      destruct (usersMap !! senderId m0); [by apply IH | done].
Qed.

(** X18.  When the store rejects the lookups and [usersMap] lacks the sender of
    one room that counts, the handler ends before its merge: the session
    stays as it is, also for the rooms whose sender is known. *)
Theorem chat_lookup_rejected (uid : string) (userData : option User.t)
    (usersMap : gmap string User.t) (usersSnap : option (list (string * User.t)))
    (rooms : list (ChatRoom.t Timestamp)) (w : Session) :
  (∃ room m, room ∈ rooms ∧ unreadFromOther uid room = Some m
             ∧ usersMap !! senderId m = None) →
  chatProducer uid userData usersMap (λ _ _, DocRejected) rooms = None
  ∧ (onChatRoomsSnapshot uid userData usersMap usersSnap (λ _ _, DocRejected) rooms w).1
    = w.
Proof.
  intros Hex. unfold onChatRoomsSnapshot, chatProducer.
  by rewrite (chatLoop_rejected uid userData usersMap rooms Hex 0 []).
Qed.

(** *** The set of sent identities *)





End Reconciler.

(** ** The outcome of the mail promises *)

Section Resolution.
Context {Timestamp : Type}.
Variable toMillis : Timestamp → Q.
Variable firestore : bool.
Variables resolves1 resolves2 : MailData → bool.


End Resolution.

(** ** The sample session *)

Ltac by_computation :=
  match goal with
  | |- ?P => apply (@bool_decide_unpack P _); vm_compute; exact I
  end.

Definition anaMail : option string := Some "ana@example.com".

(** The session after the chat producer delivered one message. *)
Definition afterChat : Session :=
  run millis true resolves initial [([chatMessage 5], ∅)].

(** The snapshot of the user's requests, processed before the user document
    has arrived and once more after it. *)
Definition emaillessPass : list (Candidate Z) * gset string :=
  (produce (processProjectSnapshot clock "u1" None [requestR1]), readIdsOf None).

Definition emailedPass : list (Candidate Z) * gset string :=
  (produce (processProjectSnapshot laterClock "u1" (Some ana) [requestR1]),
   readIdsOf (Some ana)).

(** A merge with a tie: [bid-r1] and [bid-r2] carry the same timestamp and
    stay in the order of the map, where [bid-r1] took its place in the first
    pass; [msg-c9] is read.  Mail went out for [msg-c9] and [bid-r2]; for
    [bid-r1], whose first candidate had no recipient, it did not. *)
Example sample_session :
  let w := run millis true resolves initial
             [([chatMessage 5; bidOn "r1" 3 None], ∅);
              ([bidOn "r1" 9 anaMail; bidOn "r2" 9 anaMail], {["msg-c9"]})] in
  allNotifications w
  = [ {| core := bidOn "r1" 9 anaMail; isRead := false |};
      {| core := bidOn "r2" 9 anaMail; isRead := false |};
      {| core := chatMessage 5; isRead := true |} ]
  ∧ (mail w).*1 = ["msg-c9"; "bid-r2"]
  ∧ unreadCount (allNotifications w) = 2.
Proof. vm_compute. done. Qed.

(** The two handlers in turn.  The request snapshot comes first, with
    [userData] null: its candidates have no recipient and no mail goes out
    for them.  The user document follows: the gig and the review request are
    new and unread, and mail goes out for both. *)
Example sample_handlers :
  let w1 := onProjectSnapshot millis clock true resolves "u1" None
              [requestR2; requestR1] initial in
  let w2 := onUserDocSnapshot millis laterClock true resolves "u1" (Some ana)
              (Resolved [sunsetShoot]) w1 in
  mail w1 = []
  ∧ identities (allNotifications w2)
    = ["review-multi-u1"; "gig-p1"; "delivery-r1"; "bid-r1"; "bid-r2";
       "dispute-res-r1"; "booking-r2"]
  ∧ (mail w2).*1 = ["gig-p1"; "review-multi-u1"]
  ∧ unreadCount (allNotifications w2) = 7.
Proof. vm_compute. done. Qed.

Lemma mergeNotifications_spec_witness :
  let prevNotifs := allNotifications afterChat in
  let newNotifs := [bidOn "r1" 9 anaMail; bidOn "r2" 9 anaMail; bidOn "r1" 11 None] in
  let readIds : gset string := {["msg-c9"]} in
  let out := (mergeNotifications millis true prevNotifs newNotifs readIds ∅).1 in
  let values := (map_to_list (mergeMapping prevNotifs newNotifs)).*2 in
  out = [ {| core := bidOn "r1" 11 None; isRead := false |};
          {| core := bidOn "r2" 9 anaMail; isRead := false |};
          {| core := chatMessage 5; isRead := true |} ]
  ∧ out ≡ₚ (λ c, {| core := c; isRead := bool_decide (id c ∈ readIds) |}) <$> values
  ∧ core <$> out ≡ₚ values
  ∧ StronglySorted (descending millis) out
  ∧ (∀ n, n ∈ out → isRead n = bool_decide (id (core n) ∈ readIds))
  ∧ (∀ k c, mergeMapping prevNotifs newNotifs !! k = Some c → id c = k).
Proof.
  split; [vm_compute; reflexivity |].
  exact (mergeNotifications_spec millis true (allNotifications afterChat)
           [bidOn "r1" 9 anaMail; bidOn "r2" 9 anaMail; bidOn "r1" 11 None]
           {["msg-c9"]} ∅).
Defined.

Lemma delivery_once_per_session_witness :
  let before := [([chatMessage 5], ∅ : gset string)] in
  let p := ([bidOn "r1" 9 anaMail; bidOn "r1" 10 None], ∅ : gset string) in
  let after := [([bidOn "r1" 11 anaMail], ∅ : gset string); ([chatMessage 12], ∅)] in
  let request := ("bid-r1", mailData {| core := bidOn "r1" 9 anaMail; isRead := false |}) in
  (firstFor "bid-r1" p.1 = Some (bidOn "r1" 9 anaMail)
   ∧ ("bid-r1" ∉ identities (allNotifications (run millis true resolves initial before)))
   ∧ ("bid-r1" ∉ p.2)
   ∧ truthy (recipientEmail (bidOn "r1" 9 anaMail)) = true)
  ∧ deliveries_of "bid-r1" (mail (run millis true resolves initial before)) = []
  ∧ deliveries_of "bid-r1" (mail (run millis true resolves initial (before ++ [p])))
    = [request]
  ∧ deliveries_of "bid-r1" (mail (run millis true resolves initial (before ++ p :: after)))
    = [request]
  ∧ (∀ passes j,
       length (deliveries_of j (mail (run millis true resolves initial passes))) ≤ 1)
  ∧ (∀ (w : Session) q j,
       deliveries_of j (mail (mergePass millis true resolves w q))
       ≠ deliveries_of j (mail w) →
       ∃ c', firstFor j q.1 = Some c'
             ∧ (j ∉ identities (allNotifications w)) ∧ (j ∉ q.2)
             ∧ true = true ∧ truthy (recipientEmail c') = true).
Proof.
  intros before p after request.
  assert (firstFor "bid-r1" p.1 = Some (bidOn "r1" 9 anaMail)) as H1
    by (vm_compute; reflexivity).
  assert ("bid-r1" ∉ identities (allNotifications (run millis true resolves initial before)))
    as H2 by by_computation.
  assert ("bid-r1" ∉ p.2) as H3 by by_computation.
  assert (truthy (recipientEmail (bidOn "r1" 9 anaMail)) = true) as H5 by reflexivity.
  split; [by split_and! |].
  exact (delivery_once_per_session millis true resolves before after p "bid-r1"
           (bidOn "r1" 9 anaMail) H1 H2 H3 eq_refl H5).
Defined.

(** C2 as worded fails.  The snapshot of the user's requests arrives
    before the user document: [userData] is still null, the candidates
    [processProjectSnapshot] pushes carry no recipient email, and the session
    makes no mail request for the new, unread [bid-r1]. *)
Lemma delivery_needs_recipient :
  ¬ delivered_exactly_once millis true resolves
      [(produce (processProjectSnapshot clock "u1" None [requestR1]), readIdsOf None)]
      "bid-r1".
Proof.
  intros H.
  specialize (H [] (produce (processProjectSnapshot clock "u1" None [requestR1]),
                    readIdsOf None) [] eq_refl).
  assert (length (deliveries_of "bid-r1"
            (mail (run millis true resolves initial
                     [(produce (processProjectSnapshot clock "u1" None [requestR1]),
                       readIdsOf None)]))) = 1) as Hone.
  { apply H; by_computation. }
  vm_compute in Hone. discriminate.
Qed.

Lemma merge_disjoint_batches_commute_witness :
  let batchA := [bidOn "r1" 9 anaMail] in
  let batchB := [bidOn "r2" 7 anaMail; bidOn "r2" 8 None] in
  let readIds : gset string := {["msg-c9"]} in
  let n := {| core := chatMessage 5; isRead := false |} in
  (∀ k, k ∈ id <$> batchA → k ∉ id <$> batchB)
  ∧ JsMap.denote (notifsMapOf true
                    (mergePass millis true resolves afterChat (batchA, readIds))
                    (batchB, readIds))
    = JsMap.denote (notifsMapOf true
                      (mergePass millis true resolves afterChat (batchB, readIds))
                      (batchA, readIds))
  ∧ allNotifications (run millis true resolves afterChat
                        [(batchA, readIds); (batchB, readIds)])
    ≡ₚ allNotifications (run millis true resolves afterChat
                          [(batchB, readIds); (batchA, readIds)])
  ∧ (reconciled (allNotifications afterChat)
     ∧ n ∈ allNotifications afterChat
     ∧ (id (core n) ∉ id <$> batchA)
     ∧ annotate readIds (core n)
       ∈ allNotifications (mergePass millis true resolves afterChat (batchA, readIds))).
Proof.
  intros batchA batchB readIds n.
  assert (∀ k, k ∈ id <$> batchA → k ∉ id <$> batchB) as Hdisj.
  { intros k Hk. apply list_elem_of_singleton in Hk as ->. by_computation. }
  destruct (merge_disjoint_batches_commute millis true resolves afterChat
              batchA batchB readIds) as (Hcomm & Hkeep).
  destruct (Hcomm Hdisj) as (Hmap & Hperm).
  assert (reconciled (allNotifications afterChat)) as Hrec by by_computation.
  assert (n ∈ allNotifications afterChat) as Hn by (vm_compute; left).
  assert (id (core n) ∉ id <$> batchA) as Hfresh by by_computation.
  split_and!; [done.. |]. exact (Hkeep n Hrec Hn Hfresh).
Defined.

Lemma identities_only_grow_witness :
  let p := ([bidOn "r1" 9 anaMail], ∅ : gset string) in
  "msg-c9" ∈ identities (allNotifications afterChat)
  ∧ (∀ passes,
       "msg-c9" ∈ identities (allNotifications (run millis true resolves afterChat passes)))
  ∧ ("msg-c9" ∉ p.2)
  ∧ ∃ n, n ∈ allNotifications (mergePass millis true resolves afterChat p)
         ∧ id (core n) = "msg-c9" ∧ isRead n = false
         ∧ 0 < unreadCount (allNotifications (mergePass millis true resolves afterChat p)).
Proof.
  intros p.
  assert ("msg-c9" ∈ identities (allNotifications afterChat)) as Hk by by_computation.
  destruct (identities_only_grow millis true resolves afterChat "msg-c9" Hk)
    as [Hrun Hpass].
  assert ("msg-c9" ∉ p.2) as Hp by by_computation.
  split_and!; [done.. |]. exact (Hpass p Hp).
Defined.

Lemma no_recipient_no_delivery_witness :
  let batch := [bidOn "r1" 3 None; chatMessage 5] in
  let w' := mergePass millis true resolves initial (batch, ∅) in
  let later := {| core := bidOn "r1" 9 anaMail; isRead := false |} in
  (∀ c, c ∈ batch → id c = "bid-r1" → truthy (recipientEmail c) = false)
  ∧ "bid-r1" ∈ id <$> batch
  ∧ sendEmailNotification true ∅ {| core := bidOn "r1" 3 None; isRead := false |} = None
  ∧ (mail w').*1 = ["msg-c9"]
  ∧ deliveries_of "bid-r1" (mail w') = deliveries_of "bid-r1" (mail (@initial Z))
  ∧ ("bid-r1" ∈ sentEmails w' ↔ "bid-r1" ∈ sentEmails (@initial Z))
  ∧ sendEmailNotification true (sentEmails w') later = Some (mailData later)
  ∧ "bid-r1" ∈ identities (allNotifications w')
  ∧ deliveries_of "bid-r1"
      (mail (run millis true resolves w' [([bidOn "r1" 9 anaMail], ∅)])) = []
  ∧ (mail (run millis true resolves initial
             ([] ++ (batch, ∅) :: [([bidOn "r1" 9 anaMail], ∅)]))).*1 = ["msg-c9"].
Proof.
  intros batch w' later.
  destruct (no_recipient_no_delivery millis true resolves initial batch ∅)
    as (Hsend & Horigin & Hpass).
  assert (∀ c, c ∈ batch → id c = "bid-r1" → truthy (recipientEmail c) = false) as Hnone.
  { intros c Hc Hid. apply elem_of_cons in Hc as [->|Hc]; [done |].
    apply list_elem_of_singleton in Hc as ->. discriminate Hid. }
  assert ("bid-r1" ∈ id <$> batch) as Hin by by_computation.
  destruct (Hpass "bid-r1" Hnone) as (Hmail & Hsent & Hlater & Hrest).
  destruct (Hrest Hin) as (Hlist & Hno & _).
  split_and!.
  - exact Hnone.
  - exact Hin.
  - by apply Hsend.
  - vm_compute. reflexivity.
  - exact Hmail.
  - exact Hsent.
  - apply (Hlater later); [done.. |]. by_computation.
  - exact Hlist.
  - exact (Hno [([bidOn "r1" 9 anaMail], ∅)]).
  - vm_compute. reflexivity.
Defined.

(** C10 as worded fails.  The snapshot of the user's requests arrives before
    the user document and once more after it.  The first pass puts [bid-r1]
    in the list without an email and makes no request; the candidate of the
    second pass carries Ana's address, but [bid-r1] is no longer new, and
    neither this pass nor any that could follow makes a request for it.
    (Had the second snapshot come alone, each of its candidates would have
    got its request.) *)
Lemma later_candidate_not_delivered :
  id <$> emaillessPass.1 = ["bid-r1"; "delivery-r1"; "dispute-res-r1"]
  ∧ recipientEmail <$> emaillessPass.1 = [None; None; None]
  ∧ id <$> emailedPass.1 = ["bid-r1"; "delivery-r1"; "dispute-res-r1"]
  ∧ recipientEmail <$> emailedPass.1 = [anaMail; anaMail; anaMail]
  ∧ ("bid-r1" ∉ emailedPass.2)
  ∧ mail (run millis true resolves initial [emaillessPass; emailedPass]) = []
  ∧ (mail (run millis true resolves initial [emailedPass])).*1
    = ["bid-r1"; "delivery-r1"; "dispute-res-r1"]
  ∧ ¬ later_delivery_possible millis true resolves initial
        emaillessPass.1 emaillessPass.2 "bid-r1".
Proof.
  split_and!;
    [vm_compute; reflexivity.. | by_computation | vm_compute; reflexivity
    | vm_compute; reflexivity |].
  intros H.
  destruct H as [later Hlater].
  - by_computation.
  - apply (proj1 (Forall_forall
             (λ c, id c = "bid-r1" → truthy (recipientEmail c) = false)
             emaillessPass.1)).
    by_computation.
  - rewrite run_no_more in Hlater by by_computation.
    vm_compute in Hlater. lia.
Qed.

Lemma handleMarkAsRead_writes_witness :
  let notifs := [ {| core := chatMessage 5; isRead := true |};
                  {| core := bidOn "r1" 3 None; isRead := false |} ] in
  handleMarkAsRead true (Some "u1") notifs
  = [ {| update_path := ["users"; "u1"];
         readNotificationIds_arrayUnion := ["bid-r1"] |} ]
  ∧ handleMarkAsRead true (Some "u1") [ {| core := chatMessage 5; isRead := true |} ] = []
  ∧ handleMarkAsRead true None notifs = []
  ∧ (∀ stored u, u ∈ handleMarkAsRead true (Some "u1") notifs →
       (list_to_set (applyUpdate stored u) : gset string)
       = list_to_set stored ∪ list_to_set ["bid-r1"]).
Proof.
  intros notifs.
  destruct (handleMarkAsRead_writes true (Some "u1") notifs) as (Hone & _ & _ & Hunion).
  destruct (handleMarkAsRead_writes true (Some "u1")
              [ {| core := chatMessage 5; isRead := true |} ]) as (_ & Hzero & _ & _).
  destruct (handleMarkAsRead_writes true None notifs) as (_ & _ & Hnobody & _).
  split_and!.
  - by apply Hone.
  - by apply Hzero.
  - apply Hnobody. by left.
  - exact Hunion.
Defined.

(** C8 as worded fails: with nobody signed in any more, the unread entry
    that is still in the list of the session gives no write. *)
Lemma markAllRead_needs_user :
  ¬ markAllRead_one_write true None (allNotifications afterChat).
Proof.
  intros [Hwrite _]. destruct Hwrite as (u & Hu & _).
  - vm_compute. discriminate.
  - vm_compute in Hu. discriminate.
Qed.

Lemma bid_candidate_for_request_witness :
  let docs := [requestR2; requestR1] in
  let candidate now :=
    {| id := "bid-r1"; type := new_bid;
       message := "2 new bid(s)" +:+ " on " +:+ dquote +:+ "Wedding" +:+ dquote;
       link := "/requests/r1"; timestamp := now;
       recipientEmail := anaMail; recipientName := Some "Ana" |} in
  (NoDup (request_id <$> docs) ∧ requestR1 ∈ docs ∧ request_id requestR1 = "r1")
  ∧ (∃ now, filter (λ c, id c = "bid-r1")
                   (produce (processProjectSnapshot clock "u1" (Some ana) docs))
            = [candidate now])
  ∧ filter (λ c, type c = new_bid)
           (produce (processProjectSnapshot clock "u1" (Some ana) [requestR1]))
    = [candidate (clock 0)].
Proof.
  intros docs candidate.
  assert (NoDup (request_id <$> docs)) as H1 by by_computation.
  assert (requestR1 ∈ docs) as H2 by (right; left).
  split; [done |].
  exact (bid_candidate_for_request clock "u1" (Some ana) docs requestR1
           H1 H2 eq_refl eq_refl eq_refl).
Defined.

Lemma gig_identity_depends_on_lookup_witness :
  let resolved :=
    {| id := "gig-p1"; type := gig_hired;
       message := "You've been hired for " +:+ dquote +:+ "Sunset Shoot" +:+ dquote +:+ "!";
       link := "/requests/p1"; timestamp := clock 0;
       recipientEmail := anaMail; recipientName := Some "Ana" |} in
  let fallback :=
    {| id := "gigs-u1"; type := gig_hired;
       message := "You have 1 new gig!";
       link := "/requests"; timestamp := clock 0;
       recipientEmail := anaMail; recipientName := Some "Ana" |} in
  (User.role ana ≠ "admin" ∧ User.unreadGigsCount ana = Some 1%Z)
  ∧ (∃ l, produce (userDocProducer clock "u1" ana (Resolved [sunsetShoot])) = resolved :: l
          ∧ Forall (λ c, type c = review_request) l)
  ∧ (∃ l, produce (userDocProducer clock "u1" ana (Resolved [])) = fallback :: l
          ∧ Forall (λ c, type c = review_request) l)
  ∧ (∃ l, produce (userDocProducer clock "u1" ana Rejected) = fallback :: l
          ∧ Forall (λ c, type c = review_request) l)
  ∧ id resolved ≠ id fallback.
Proof.
  intros resolved fallback.
  assert (User.role ana ≠ "admin") as H1 by discriminate.
  split; [done |].
  exact (gig_identity_depends_on_lookup clock "u1" ana sunsetShoot [] H1
           eq_refl eq_refl eq_refl).
Defined.

(** ** The further properties at work *)

(** Why [snapshot_identities_distinct] asks for plain request ids: the two
    requests give one identity, and the merge keeps one entry for both. *)
Example booking_identity_collision :
  let batch := produce (processProjectSnapshot clock "u1" (Some ana)
                          [requestApproved; requestR6]) in
  id <$> batch = ["booking-approved-r6"; "booking-approved-r6"]
  ∧ type <$> batch = [direct_booking_request; direct_booking_approved]
  ∧ length (mergeNotifications millis true [] batch ∅ ∅).1 = 1.
Proof. vm_compute. done. Qed.

Lemma session_list_invariant_witness :
  let l := allNotifications
             (run millis true resolves afterChat
                ([([bidOn "r1" 3 None], ∅)] ++ [([bidOn "r2" 9 anaMail], {["msg-c9"]})])) in
  reconciled l
  ∧ StronglySorted (descending millis) l
  ∧ (∀ n, n ∈ l → isRead n = bool_decide (id (core n) ∈ ({["msg-c9"]} : gset string))).
Proof.
  exact (session_list_invariant millis true resolves afterChat
           [([bidOn "r1" 3 None], ∅)] ([bidOn "r2" 9 anaMail], {["msg-c9"]})).
Defined.

Lemma merge_last_write_wins_witness :
  let out := (mergeNotifications millis true (allNotifications afterChat)
                ([bidOn "r1" 3 None] ++ bidOn "r1" 9 anaMail :: [chatMessage 12])
                ∅ ∅).1 in
  let entry := {| core := bidOn "r1" 9 anaMail; isRead := false |} in
  (id (bidOn "r1" 9 anaMail) ∉ id <$> [chatMessage 12])
  ∧ out = [ {| core := chatMessage 12; isRead := false |}; entry ]
  ∧ entry ∈ out
  ∧ (∀ n, n ∈ out → id (core n) = "bid-r1" → n = entry)
  ∧ filter (λ n, id (core n) = "bid-r1") out = [entry]
  ∧ filter (λ c', id c' = "bid-r1") (core <$> out) = [bidOn "r1" 9 anaMail].
Proof.
  intros out entry.
  assert (id (bidOn "r1" 9 anaMail) ∉ id <$> [chatMessage 12]) as H1 by by_computation.
  split; [done |]. split; [vm_compute; reflexivity |].
  exact (merge_last_write_wins millis true (allNotifications afterChat)
           [bidOn "r1" 3 None] [chatMessage 12] (bidOn "r1" 9 anaMail) ∅ ∅ H1).
Defined.

Lemma merge_empty_batch_witness :
  let prevNotifs :=
    (mergeNotifications millis true [] [chatMessage 5; bidOn "r1" 9 None] ∅ ∅).1 in
  let readIds : gset string := {["bid-r1"]} in
  (reconciled prevNotifs ∧ StronglySorted (descending millis) prevNotifs)
  ∧ mergeNotifications millis true prevNotifs [] readIds ∅
    = ([ {| core := bidOn "r1" 9 None; isRead := true |};
         {| core := chatMessage 5; isRead := false |} ], []).
Proof.
  intros prevNotifs readIds.
  assert (reconciled prevNotifs) as H1 by apply mergeNotifications_reconciled.
  assert (StronglySorted (descending millis) prevNotifs) as H2.
  { subst prevNotifs. rewrite mergeNotifications_out. apply sort_sorted. }
  split; [done |].
  rewrite (merge_empty_batch millis true prevNotifs readIds ∅ H1 H2).
  vm_compute. reflexivity.
Defined.

Lemma session_mail_shape_witness :
  let passes := [([chatMessage 5; bidOn "r1" 3 None], ∅ : gset string)] in
  let d := ("msg-c9", mailData {| core := chatMessage 5; isRead := false |}) in
  d ∈ mail (run millis true resolves initial passes)
  ∧ ∃ p c e,
      p ∈ passes ∧ c ∈ p.1 ∧ (id c ∉ p.2)
      ∧ recipientEmail c = Some e ∧ e ≠ ""
      ∧ d = (id c, mailData {| core := c; isRead := false |})
      ∧ to d.2 = [Some e]
      ∧ String.length (subject (mail_message d.2)) ≤ 71.
Proof.
  intros passes d.
  assert (d ∈ mail (run millis true resolves initial passes)) as H1.
  { vm_compute. left. }
  split; [done |].
  exact (session_mail_shape millis true resolves passes d H1).
Defined.

Lemma markAllRead_then_merge_witness :
  let notifs := [ {| core := chatMessage 5; isRead := true |};
                  {| core := bidOn "r1" 3 None; isRead := false |} ] in
  let stored := ["msg-c9"] in
  let newNotifs := [bidOn "r1" 9 anaMail; bidOn "r2" 9 anaMail] in
  let stored' := stored_after stored (handleMarkAsRead true (Some "u1") notifs) in
  (∀ n, n ∈ notifs → isRead n = true → id (core n) ∈ stored)
  ∧ stored' = ["msg-c9"; "bid-r1"]
  ∧ (∀ k, k ∈ identities notifs → k ∈ stored')
  ∧ (∀ n, n ∈ (mergeNotifications millis true notifs newNotifs (list_to_set stored') ∅).1 →
          isRead n = false →
          (id (core n) ∉ identities notifs) ∧ id (core n) ∈ id <$> newNotifs)
  ∧ unreadCount (mergeNotifications millis true notifs [] (list_to_set stored') ∅).1 = 0.
Proof.
  intros notifs stored newNotifs stored'.
  assert (∀ n, n ∈ notifs → isRead n = true → id (core n) ∈ stored) as H1.
  { intros n Hn Hread. apply elem_of_cons in Hn as [->|Hn]; [left |].
    apply list_elem_of_singleton in Hn as ->. discriminate Hread. }
  split; [done |]. split; [vm_compute; reflexivity |].
  exact (markAllRead_then_merge millis true "u1" notifs stored newNotifs ∅ eq_refl H1).
Defined.

Lemma itemSelect_marks_read_witness :
  let notifs := [ {| core := chatMessage 5; isRead := true |};
                  {| core := bidOn "r1" 3 None; isRead := false |} ] in
  let e := handleItemSelect true (Some "u1") true "/requests/r1" "bid-r1" in
  let stored' := stored_after ["msg-c9"] (updates e) in
  ("bid-r1" ∈ identities notifs ∧ "bid-r1" ∉ ["msg-c9"])
  ∧ updates e = [ {| update_path := ["users"; "u1"];
                     readNotificationIds_arrayUnion := ["bid-r1"] |} ]
  ∧ pushed e = ["/requests/r1"]
  ∧ isOpen e = false
  ∧ stored' = ["msg-c9"; "bid-r1"]
  ∧ unreadCount (mergeNotifications millis true notifs [] (list_to_set stored') ∅).1 = 0
  ∧ unreadCount (mergeNotifications millis true notifs [] (list_to_set ["msg-c9"]) ∅).1 = 1
  ∧ handleItemSelect true None true "/requests/r1" "bid-r1"
    = {| updates := []; pushed := []; isOpen := true |}
  ∧ handleItemSelect false (Some "u1") true "/requests/r1" "bid-r1"
    = {| updates := []; pushed := []; isOpen := true |}.
Proof.
  intros notifs e stored'.
  assert ("bid-r1" ∈ identities notifs) as H1 by by_computation.
  assert ("bid-r1" ∉ ["msg-c9"]) as H2 by by_computation.
  destruct (itemSelect_marks_read millis true (Some "u1") true "/requests/r1" "bid-r1"
              notifs ["msg-c9"] [] ∅) as [Hdone _].
  destruct (Hdone "u1" eq_refl eq_refl) as (Hu & Hp & Ho & Hs & Hcount).
  specialize (Hcount H1 H2).
  assert (unreadCount (mergeNotifications millis true notifs []
                         (list_to_set ["msg-c9"]) ∅).1 = 1) as Hold
    by (vm_compute; reflexivity).
  split; [done |].
  split_and!; [exact Hu | exact Hp | exact Ho | exact Hs | | exact Hold | done..].
  fold e stored' in Hcount. rewrite Hold in Hcount. lia.
Defined.

Lemma handleOpenChange_writes_witness :
  let notifs := [ {| core := chatMessage 5; isRead := true |} ] in
  hasUnread notifs = false
  ∧ updates (handleOpenChange true (Some "u1") notifs false) = handleMarkAsRead true (Some "u1") notifs
  ∧ updates (handleOpenChange true (Some "u1") notifs false) = [].
Proof.
  intros notifs.
  destruct (handleOpenChange_writes true (Some "u1") notifs false)
    as (Hclose & _ & _ & Hnone).
  split_and!; [reflexivity | exact Hclose | by apply Hnone].
Defined.

Lemma admin_candidates_witness :
  let out := produce (userDocProducer clock "u1" root (Resolved [sunsetShoot])) in
  User.role root = "admin"
  ∧ (λ c, (id c, type c, link c)) <$> out
    = [ ("reports-u1", new_report, "/admin/reports");
        ("disputes-u1", project_disputed, "/admin/projects") ]
  ∧ timestamp <$> out = [clock 0; clock 1]
  ∧ (∀ c, c ∈ out →
       recipientEmail c = Some "ayn.eee.11@gmail.com" ∧ recipientName c = Some "Root")
  ∧ message <$> out
    = [ "There are 3 open user reports to review.";
        "There are 1 disputed projects requiring review." ]
  ∧ produce (userDocProducer clock "u1" root Rejected) = out.
Proof.
  intros out.
  destruct (admin_candidates clock "u1" root (Resolved [sunsetShoot]) eq_refl)
    as (Hfields & Htime & Hto & Hmessage & Hsame).
  split_and!.
  - reflexivity.
  - exact Hfields.
  - exact Htime.
  - exact Hto.
  - apply Hmessage. repeat constructor; intros z [= <-]; done.
  - by apply Hsame.
Defined.

Lemma user_candidates_witness :
  let out := produce (userDocProducer clock "u2" cy (Resolved [sunsetShoot])) in
  (User.role cy ≠ "admin" ∧ User.unreadGigsCount cy ≠ Some 1%Z)
  ∧ type <$> out = [gig_hired]
  ∧ Forall (λ c, recipientEmail c = User.email cy ∧ recipientName c = User.name cy) out
  ∧ out = produce (userDocProducer clock "u2" cy Rejected).
Proof.
  intros out.
  assert (User.role cy ≠ "admin") as H1 by discriminate.
  assert (User.unreadGigsCount cy ≠ Some 1%Z) as H2 by discriminate.
  destruct (user_candidates clock "u2" cy (Resolved [sunsetShoot]) H1)
    as (Htypes & Hmail & Hlookup).
  split_and!; [done | done | exact Htypes | exact Hmail | exact (Hlookup H2)].
Defined.

Lemma bystander_candidates_witness :
  (∀ d, d ∈ [requestR5] →
        ProjectRequest.userId (doc_data d) ≠ "u1"
        ∧ ProjectRequest.hiredPhotographerId (doc_data d) ≠ Some "u1")
  ∧ Forall (λ c, type c = project_completed ∨ type c = dispute_resolved)
           (produce (processProjectSnapshot clock "u1" (Some ana) [requestR5])).
Proof.
  assert (∀ d, d ∈ [requestR5] →
               ProjectRequest.userId (doc_data d) ≠ "u1"
               ∧ ProjectRequest.hiredPhotographerId (doc_data d) ≠ Some "u1") as H1.
  { intros d ->%list_elem_of_singleton. split; discriminate. }
  split; [done |].
  exact (bystander_candidates clock "u1" (Some ana) [requestR5] H1).
Defined.

Lemma snapshot_identities_distinct_witness :
  let docs := [requestR2; requestR1; requestR5] in
  let batch := produce (processProjectSnapshot clock "u1" (Some ana) docs) in
  (NoDup (request_id <$> docs) ∧ Forall plain_id (request_id <$> docs))
  ∧ NoDup (id <$> batch)
  ∧ id <$> batch `sublist_of` concat (slots <$> (request_id <$> docs))
  ∧ length (mergeNotifications millis true [] batch ∅ ∅).1 = length batch.
Proof.
  intros docs batch.
  assert (NoDup (request_id <$> docs)) as H1 by by_computation.
  assert (Forall plain_id (request_id <$> docs)) as H2.
  { repeat constructor; intros Heq; vm_compute in Heq; discriminate Heq. }
  split; [done |].
  exact (snapshot_identities_distinct millis clock true "u1" (Some ana) docs ∅ ∅ H1 H2).
Defined.

Lemma userIdsToFetch_spec_witness :
  let rooms := [roomP4; roomC9; roomOwn; roomP4] in
  userIdsToFetch "u1" knownUsers rooms = ["u4"]
  ∧ NoDup (userIdsToFetch "u1" knownUsers rooms)
  ∧ (∀ i, i ∈ userIdsToFetch "u1" knownUsers rooms
          ↔ ∃ room m, room ∈ rooms ∧ unreadFromOther "u1" room = Some m
                      ∧ senderId m = i ∧ knownUsers !! i = None)
  ∧ ("u1" ∉ userIdsToFetch "u1" knownUsers rooms).
Proof.
  intros rooms. split; [vm_compute; reflexivity |].
  exact (userIdsToFetch_spec "u1" knownUsers rooms).
Defined.

Lemma chat_candidates_witness :
  let rooms := [roomC9; roomOwn; roomP4] in
  (∀ k i, noSuchUser k i ≠ DocRejected)
  ∧ ∃ out, chatProducer "u1" (Some ana) knownUsers noSuchUser rooms = Some out
      ∧ id <$> out
        = (λ r, "msg-" +:+ ChatRoom.id r)
            <$> filter (λ r, is_Some (unreadFromOther "u1" r)) rooms
      ∧ Forall (λ c, (type c = project_chat ∨ type c = direct_message)
                     ∧ recipientEmail c = Some ana ≫= User.email
                     ∧ recipientName c = Some ana ≫= User.name) out.
Proof.
  intros rooms.
  assert (∀ k i, noSuchUser k i ≠ DocRejected) as H1 by (intros k i; discriminate).
  split; [done |].
  exact (chat_candidates "u1" (Some ana) knownUsers noSuchUser rooms H1).
Defined.

Lemma chat_known_senders_witness :
  let rooms := [roomC9; roomOwn] in
  (∀ room m, room ∈ rooms → unreadFromOther "u1" room = Some m →
             is_Some (knownUsers !! senderId m))
  ∧ ∃ out,
      chatProducer "u1" (Some ana) knownUsers noSuchUser rooms = Some out
      ∧ chatProducer "u1" (Some ana) knownUsers (λ _ _, DocRejected) rooms = Some out
      ∧ userIdsToFetch "u1" knownUsers rooms = []
      ∧ onChatRoomsSnapshot millis true resolves "u1" (Some ana) knownUsers None
          noSuchUser rooms afterChat
        = (mergePass millis true resolves afterChat (out, readIdsOf (Some ana)),
           knownUsers).
Proof.
  intros rooms.
  assert (∀ room m, room ∈ rooms → unreadFromOther "u1" room = Some m →
                    is_Some (knownUsers !! senderId m)) as H1.
  { intros room m Hr Hm. apply elem_of_cons in Hr as [->|Hr].
    - vm_compute in Hm. injection Hm as <-. by_computation.
    - apply list_elem_of_singleton in Hr as ->. vm_compute in Hm. discriminate Hm. }
  split; [done |].
  exact (chat_known_senders millis true resolves "u1" (Some ana) knownUsers None
           noSuchUser rooms afterChat H1).
Defined.

Lemma chat_lookup_rejected_witness :
  let rooms := [roomC9; roomP4] in
  (∃ room m, room ∈ rooms ∧ unreadFromOther "u1" room = Some m
             ∧ knownUsers !! senderId m = None)
  ∧ chatProducer "u1" (Some ana) knownUsers (λ _ _, DocRejected) rooms = None
  ∧ (onChatRoomsSnapshot millis true resolves "u1" (Some ana) knownUsers None
       (λ _ _, DocRejected) rooms afterChat).1
    = afterChat.
Proof.
  intros rooms.
  assert (∃ room m, room ∈ rooms ∧ unreadFromOther "u1" room = Some m
                    ∧ knownUsers !! senderId m = None) as H1.
  { exists roomP4, {| senderId := "u4"; sentAt := 8%Z |}.
    split_and!; [right; left | vm_compute; reflexivity | vm_compute; reflexivity]. }
  split; [done |].
  exact (chat_lookup_rejected millis true resolves "u1" (Some ana) knownUsers None
           rooms afterChat H1).
Defined.
